(** * tree64: ranked trees as 64-bit descendant masks

    A shallow embedding of [tree64.c]: the [rank] lookup, the move loop of
    [t64_rnni_distance], the coalescent generator [t64_random], the printer
    [t64_print] and the repetitions of [main], together with the properties
    of the ranked-tree representation they rely on. *)

From Stdlib Require Import ZArith List Lia Bool Permutation Ascii.
From stdpp Require Import base list.
Import ListNotations.

Local Open Scope Z_scope.

(** ** Machine integers

    [uint64_t] and [size_t] are both 64 bits wide (LP64).  Values are kept in
    [Z]; every operation that can leave the range is followed by [wrap]. *)

Definition wrap (z : Z) : Z := z mod 2 ^ 64.

Definition add64 (a b : Z) : Z := wrap (a + b).
Definition sub64 (a b : Z) : Z := wrap (a - b).
Definition neg64 (a : Z) : Z := wrap (- a).

(** [popcount64(x)], i.e. [__builtin_popcountll]: the number of bits set among
    the 64 bits of [x]. *)
Definition popcount64 (x : Z) : Z :=
  fold_right (fun k acc => Z.b2z (Z.testbit x (Z.of_nat k)) + acc) 0 (seq 0 64).

(** ** Arrays of masks

    A [uint64_t *] is a list of words, read and written at a [size_t] index.
    The C code never indexes outside its buffers on the inputs considered
    below; outside the list a read yields 0 and a write is dropped. *)

Definition load (a : list Z) (i : Z) : Z := nth (Z.to_nat i) a 0.
Definition store (a : list Z) (i : Z) (x : Z) : list Z := <[Z.to_nat i := x]> a.

(** ** Fatal exits

    [errx] and a failed [assert] end the process; they are the [Fatal]
    outcomes of the model.  ([malloc] is taken to succeed.) *)

Inductive fatal : Type :=
| Assert_failed      (* assert(n > 1 && n <= 64) *)
| No_ancestor_in_v   (* errx(1, "x has no ancestor in v") *)
| No_ancestor_in_u.  (* errx(1, "x has no ancestor in u") *)

Inductive result (A : Type) : Type :=
| Ok (a : A)
| Fatal (e : fatal).

Arguments Ok {A} a.
Arguments Fatal {A} e.

(** ** [rank]

    [for (i=0; i<=n-2; i++) if ((v[i] & x) == x) return i;] followed by
    [errx].  [todo] counts the indices still to be visited, [n-2+1] at
    entry. *)

Fixpoint rank_loop (v : list Z) (x : Z) (i : Z) (todo : nat) : result Z :=
  match todo with
  | O => Fatal No_ancestor_in_v
  | S todo' =>
      if Z.land (load v i) x =? x then Ok i
      else rank_loop v x (i + 1) todo'
  end.

Definition rank (n : Z) (v : list Z) (x : Z) : result Z :=
  rank_loop v x 0 (Z.to_nat (wrap (n - 2) + 1)).

(** ** The elementary move of [t64_rnni_distance]

    [child_scan] is the loop [for (j=r-1; j<=r-1; j--)]: it visits
    [j = r-1, r-2, ..., 0]; after index 0 the counter wraps above [r-1], the
    loop ends and [j > r-1] selects the [errx].  [todo] counts the indices
    still to be visited. *)

Fixpoint child_scan (T1 : list Z) (u : Z) (j : Z) (todo : nat) : result Z :=
  match todo with
  | O => Fatal No_ancestor_in_u
  | S todo' =>
      let x := load T1 j in
      if Z.land u x =? x then Ok x
      else child_scan T1 u (j - 1) todo'
  end.

Definition find_child (T1 : list Z) (u : Z) (r : Z) : result Z :=
  if popcount64 u =? 2 then Ok (Z.land u (neg64 u))
  else child_scan T1 u (wrap (r - 1)) (Z.to_nat (wrap (r - 1) + 1)).

(** The body of [while (r > i)] up to the counters: [Ri] is [R[i]]. *)
Definition move (Ri : Z) (T1 : list Z) (r : Z) : result (list Z) :=
  let v := load T1 r in
  let u := load T1 (wrap (r - 1)) in
  if negb (Z.land v u =? 0) then
    match find_child T1 u r with
    | Fatal e => Fatal e
    | Ok x =>
        let y := sub64 u x in
        let w := sub64 v u in
        if Z.land Ri (add64 x w) =? add64 x w
        then Ok (store T1 (wrap (r - 1)) (add64 x w))
        else Ok (store T1 (wrap (r - 1)) (add64 y w))
    end
  else Ok (store (store T1 r u) (wrap (r - 1)) v).

(** ** [t64_rnni_distance] as a transition system

    The two nested loops are run by [step]; a state records the program
    point and the live variables [i], [r], [T1], [d]. *)

Inductive state : Type :=
| Outer (i : Z) (T1 : list Z) (d : Z)    (* at the test [i < n-1] *)
| Inner (i r : Z) (T1 : list Z) (d : Z)  (* at the test [r > i] *)
| Done (d : Z)                           (* [return d] *)
| Abort (e : fatal).

Definition step (n : Z) (R : list Z) (s : state) : state :=
  match s with
  | Outer i T1 d =>
      if i <? wrap (n - 1) then
        match rank n T1 (load R i) with
        | Ok r => Inner i r T1 d
        | Fatal e => Abort e
        end
      else Done d
  | Inner i r T1 d =>
      if r >? i then
        match move (load R i) T1 r with
        | Ok T1' => Inner i (wrap (r - 1)) T1' (wrap (d + 1))
        | Fatal e => Abort e
        end
      else Outer (wrap (i - 1)) T1 d
  | Done d => Done d
  | Abort e => Abort e
  end.

(** Entry: the assertion, then [memcpy] of the first [n-1] words of [T]. *)
Definition start (n : Z) (T : list Z) : state :=
  if (1 <? n) && (n <=? 64)
  then Outer (wrap (n - 2)) (firstn (Z.to_nat (n - 1)) T) 0
  else Abort Assert_failed.

Fixpoint run (fuel : nat) (n : Z) (R : list Z) (s : state) : state :=
  match fuel with
  | O => s
  | S fuel' => run fuel' n R (step n R s)
  end.

(** The outcome after [fuel] transitions; [None] while still running. *)
Definition t64_rnni_distance (fuel : nat) (n : Z) (T R : list Z)
  : option (result Z) :=
  match run fuel n R (start n T) with
  | Done d => Some (Ok d)
  | Abort e => Some (Fatal e)
  | _ => None
  end.

(** The states passed through by the first [fuel] transitions. *)
Fixpoint visited (fuel : nat) (n : Z) (R : list Z) (s : state) : list state :=
  match fuel with
  | O => []
  | S fuel' => s :: visited fuel' n R (step n R s)
  end.

(** The ranks [i] for which the body of the outer loop is entered. *)
Definition outer_rank (n : Z) (s : state) : option Z :=
  match s with
  | Outer i _ _ => if i <? wrap (n - 1) then Some i else None
  | _ => None
  end.

Definition outer_ranks (n : Z) (l : list state) : list Z :=
  omap (outer_rank n) l.

(** ** [t64_random]

    The generator draws from [pcg32_boundedrand_r], which belongs to the PCG
    library (pcg_variants.h): the source and its state are parameters here.
    The contract that a draw lies below the bound is assumed where the
    generator is proved correct. *)

(** [for (i=0; i<n; i++) u[i] = 1ull << i;] *)
Fixpoint init_leaves (u : list Z) (i : Z) (todo : nat) : list Z :=
  match todo with
  | O => u
  | S todo' => init_leaves (store u i (wrap (Z.shiftl 1 i))) (i + 1) todo'
  end.

Section Generator.

Variable rng : Type.
Variable pcg32_boundedrand_r : rng -> Z -> Z * rng.

(** [for (j=n, i=0; i<n-1; i++)]: one pass draws [a] below [j], lowers [j],
    draws [b] below the new [j] and joins the handles at [a] and [b]. *)
Fixpoint join_loop (todo : nat) (i j : Z) (s : rng) (u v : list Z)
  : rng * list Z :=
  match todo with
  | O => (s, v)
  | S todo' =>
      let (a, s1) := pcg32_boundedrand_r s j in
      let j' := wrap (j - 1) in
      let (b, s2) := pcg32_boundedrand_r s1 j' in
      let v1 := store v i (load u a) in
      let u1 := store u a (load u j') in
      let v2 := store v1 i (Z.lor (load v1 i) (load u1 b)) in
      let u2 := store u1 b (load v2 i) in
      join_loop todo' (i + 1) j' s2 u2 v2
  end.

(** The work buffer [u] comes from [malloc]; all its [n] cells are
    written by [init_leaves] before they are read. *)
Definition t64_random (s : rng) (n : Z) (v : list Z)
  : result (rng * list Z) :=
  if (1 <? n) && (n <=? 64) then
    let u := init_leaves (repeat 0 (Z.to_nat n)) 0 (Z.to_nat n) in
    Ok (join_loop (Z.to_nat (wrap (n - 1))) 0 n s u v)
  else Fatal Assert_failed.

End Generator.

(** ** Ranked trees

    The code does not check its input trees.  [RankedTree n v] states the
    invariants of the representation that callers are to meet: [n-1] masks,
    the root last with all [n] low bits, every node the disjoint union of two
    leaf masks or earlier nodes, no leaf stored, no mask stored twice. *)

Definition leaf_mask (n : Z) (m : Z) : Prop :=
  exists k, 0 <= k < n /\ m = 2 ^ k.

Definition earlier (n : Z) (v : list Z) (r : Z) (m : Z) : Prop :=
  leaf_mask n m \/ exists j, 0 <= j < r /\ m = load v j.

Record RankedTree (n : Z) (v : list Z) : Prop := {
  rt_leaves : 2 <= n <= 64;
  rt_length : Z.of_nat (length v) = n - 1;
  rt_root : load v (n - 2) = Z.ones n;
  rt_children : forall r, 0 <= r <= n - 2 ->
    exists a b, earlier n v r a /\ earlier n v r b /\
                Z.land a b = 0 /\ Z.lor a b = load v r;
  rt_no_leaf : forall r, 0 <= r <= n - 2 -> ~ leaf_mask n (load v r);
  rt_distinct : forall r s, 0 <= r <= n - 2 -> 0 <= s <= n - 2 ->
    load v r = load v s -> r = s
}.

(** A decision procedure for the invariants, for concrete trees. *)

Definition leaf_masks (n : Z) : list Z :=
  map (fun k => 2 ^ Z.of_nat k) (seq 0 (Z.to_nat n)).

Definition ranks (n : Z) : list Z :=
  map Z.of_nat (seq 0 (Z.to_nat (n - 1))).

Definition earlier_masks (n : Z) (v : list Z) (r : Z) : list Z :=
  leaf_masks n ++ map (load v) (map Z.of_nat (seq 0 (Z.to_nat r))).

Definition has_children (n : Z) (v : list Z) (r : Z) : bool :=
  existsb (fun a =>
    existsb (fun b => (Z.land a b =? 0) && (Z.lor a b =? load v r))
            (earlier_masks n v r))
          (earlier_masks n v r).

Definition ranked_treeb (n : Z) (v : list Z) : bool :=
  (2 <=? n) && (n <=? 64) &&
  (Z.of_nat (length v) =? n - 1) &&
  (load v (n - 2) =? Z.ones n) &&
  forallb (fun r =>
    has_children n v r &&
    negb (existsb (Z.eqb (load v r)) (leaf_masks n)) &&
    forallb (fun s => (r =? s) || negb (load v r =? load v s)) (ranks n))
    (ranks n).

(** ** Notions used in the proofs *)

(** The states in which the computation has ended. *)
Definition final (s : state) : bool :=
  match s with
  | Done _ | Abort _ => true
  | _ => false
  end.

(** The working copy has [n-1] entries and stores the full mask at a rank
    not below [lo]. *)
Definition rooted (n : Z) (T1 : list Z) (lo : Z) : Prop :=
  Z.of_nat (length T1) = n - 1 /\
  exists p, lo <= p <= n - 2 /\ load T1 p = Z.ones n.

(** The unfolding of a stored node into its children, down to the leaves:
    [Lf k] is leaf [k], [Nd r a b] the node stored at rank [r]. *)
Inductive shape : Type :=
| Lf (k : Z)
| Nd (r : Z) (a b : shape).

Fixpoint mask (t : shape) : Z :=
  match t with
  | Lf k => 2 ^ k
  | Nd _ a b => Z.lor (mask a) (mask b)
  end.

Fixpoint leaves_of (t : shape) : list Z :=
  match t with
  | Lf k => [k]
  | Nd _ a b => leaves_of a ++ leaves_of b
  end.

Fixpoint nodes_of (t : shape) : list Z :=
  match t with
  | Lf _ => []
  | Nd r a b => r :: nodes_of a ++ nodes_of b
  end.

(** The rank at the top of an unfolding, [-1] for a leaf. *)
Definition top (t : shape) : Z :=
  match t with
  | Lf _ => -1
  | Nd r _ _ => r
  end.

(** [built n v t]: [t] unfolds stored nodes of [v] down to the leaves, each
    node being the disjoint union of its two children, which sit at smaller
    ranks. *)
Fixpoint built (n : Z) (v : list Z) (t : shape) : Prop :=
  match t with
  | Lf k => 0 <= k < n
  | Nd r a b =>
      0 <= r <= n - 2 /\ load v r = Z.lor (mask a) (mask b) /\
      Z.land (mask a) (mask b) = 0 /\
      top a < r /\ top b < r /\ built n v a /\ built n v b
  end.

(** Two stored masks are disjoint, or the one at the smaller rank lies
    inside the other. *)
Definition related (v : list Z) (i j : Z) : Prop :=
  Z.land (load v i) (load v j) = 0 \/
  (Z.land (load v j) (load v i) = load v i /\ i <= j) \/
  (Z.land (load v i) (load v j) = load v j /\ j <= i).

(** The handles during the joins.

    [joined n i j u v]: after [i] joins, [u[0..j-1]] are the live handles
    (non-empty, pairwise disjoint, covering the [n] leaves, each a leaf or a
    node stored before) and [v[0..i-1]] satisfy the tree invariants, each
    stored node lying inside a live handle. *)

Record joined (n i j : Z) (u v : list Z) : Prop := {
  jn_i : 0 <= i <= n - 1;
  jn_j : j = n - i;
  jn_len_u : Z.of_nat (length u) = n;
  jn_len_v : Z.of_nat (length v) = n - 1;
  jn_handle : forall p, 0 <= p < j -> earlier n v i (load u p);
  jn_nonzero : forall p, 0 <= p < j -> load u p <> 0;
  jn_inside : forall p, 0 <= p < j ->
    Z.land (Z.ones n) (load u p) = load u p;
  jn_disjoint : forall p q, 0 <= p < j -> 0 <= q < j -> p <> q ->
    Z.land (load u p) (load u q) = 0;
  jn_cover : forall k, 0 <= k < n ->
    exists p, 0 <= p < j /\ Z.testbit (load u p) k = true;
  jn_children : forall r, 0 <= r < i ->
    exists a b, earlier n v r a /\ earlier n v r b /\
                Z.land a b = 0 /\ Z.lor a b = load v r;
  jn_no_leaf : forall r, 0 <= r < i -> ~ leaf_mask n (load v r);
  jn_under : forall r, 0 <= r < i ->
    exists p, 0 <= p < j /\ Z.land (load u p) (load v r) = load v r;
  jn_distinct : forall r s, 0 <= r < i -> 0 <= s < i ->
    load v r = load v s -> r = s;
  jn_last : 0 < i -> exists p, 0 <= p < j /\ load u p = load v (i - 1)
}.

(** The handle read at [p] after [u[a] = u[j']]. *)
Definition moved (a j' p : Z) : Z := if p =? a then j' else p.

(** A small congruential source, used to run the generator. *)
Definition lcg_draw (s : Z) (bound : Z) : Z * Z :=
  (s mod bound, (s * 6364136223846793005 + 1442695040888963407) mod 2 ^ 64).

(** ** [t64_print]

    The text written to the standard output, as a list of characters.
    [printf("%d", (uint8_t)(v[i] >> j & 0x1))] writes one decimal digit,
    the value being 0 or 1. *)

Definition digit (z : Z) : ascii := ascii_of_nat (48 + Z.to_nat z).

Definition newline : ascii := ascii_of_nat 10.

(** [for (j=0; j<n; j++) printf("%d", (uint8_t)(x >> j & 0x1));] *)
Fixpoint print_bits (x : Z) (j : Z) (todo : nat) : list ascii :=
  match todo with
  | O => []
  | S todo' =>
      digit (Z.land (Z.shiftr x j) 1 mod 256) :: print_bits x (j + 1) todo'
  end.

(** [for (i=n-2; i<=n-2; i--)]: the rows for the ranks [i, i-1, ..., 0];
    after rank 0 the counter wraps above [n-2] and the loop ends. *)
Fixpoint print_rows (n : Z) (v : list Z) (i : Z) (todo : nat) : list ascii :=
  match todo with
  | O => []
  | S todo' =>
      print_bits (load v i) 0 (Z.to_nat n) ++
      newline :: print_rows n v (i - 1) todo'
  end.

Definition t64_print (n : Z) (v : list Z) : result (list ascii) :=
  if (1 <? n) && (n <=? 64)
  then Ok (print_rows n v (wrap (n - 2)) (Z.to_nat (wrap (n - 2) + 1)))
  else Fatal Assert_failed.

(** ** [main]

    The repetitions of [main] up to its last [printf], which writes
    [(double)d/nreps]: the model yields the sum [d].  [pcg32_srandom_r]
    fills the state of the source from two seeds; the buffers [v] and [u]
    start with whatever the stack holds. *)

Section Driver.

Variable rng : Type.
Variable pcg32_boundedrand_r : rng -> Z -> Z * rng.
Variable pcg32_srandom_r : Z -> Z -> rng.

(** [for (i=0; i<nreps; i++)], [reps] passes left. *)
Fixpoint main_loop (fuel : nat) (n : Z) (reps : nat) (s : rng)
  (v u : list Z) (d : Z) : option (result Z) :=
  match reps with
  | O => Some (Ok d)
  | S reps' =>
      match t64_random rng pcg32_boundedrand_r s n v with
      | Fatal e => Some (Fatal e)
      | Ok (s1, v1) =>
          match t64_random rng pcg32_boundedrand_r s1 n u with
          | Fatal e => Some (Fatal e)
          | Ok (s2, u1) =>
              match t64_rnni_distance fuel n v1 u1 with
              | None => None
              | Some (Fatal e) => Some (Fatal e)
              | Some (Ok x) => main_loop fuel n reps' s2 v1 u1 (wrap (d + x))
              end
          end
      end
  end.

Definition main (fuel : nat) (v u : list Z) : option (result Z) :=
  main_loop fuel 50 (Z.to_nat 100000) (pcg32_srandom_r 12 34) v u 0.

End Driver.

(** ** Further notions used in the proofs *)

(** The mask read back from a printed row whose first character stands for
    leaf [j]. *)
Fixpoint read_bits (l : list ascii) (j : Z) : Z :=
  match l with
  | [] => 0
  | c :: l' =>
      Z.lor (if Ascii.eqb c (digit 1) then 2 ^ j else 0) (read_bits l' (j + 1))
  end.

(** The number of transitions after which a distance computation on [n]
    leaves has ended. *)
Definition enough (n : Z) : nat :=
  Z.to_nat ((n - 1) * (n - 2) / 2 + 2 * (n - 1) + 1).

(** The counters of a state index the [n-1] words of the working copy:
    [i] and [r] lie in [0, n-2], or [i] has just wrapped below 0. *)
Definition within (n : Z) (s : state) : Prop :=
  match s with
  | Outer i T1 _ =>
      (0 <= i <= n - 2 \/ i = 2 ^ 64 - 1) /\ Z.of_nat (length T1) = n - 1
  | Inner i r T1 _ =>
      0 <= i <= n - 2 /\ 0 <= r <= n - 2 /\ Z.of_nat (length T1) = n - 1
  | Done _ | Abort _ => True
  end.

(** * Basic facts *)

(** ** Words and arrays *)

Lemma wrap_small (z : Z) : 0 <= z < 2 ^ 64 -> wrap z = z.
Proof. intros H. unfold wrap. now apply Z.mod_small. Qed.

Lemma wrap_range (z : Z) : 0 <= wrap z < 2 ^ 64.
Proof. unfold wrap. apply Z.mod_pos_bound. reflexivity. Qed.

Lemma wrap_pred_zero : wrap (0 - 1) = 2 ^ 64 - 1.
Proof. reflexivity. Qed.

Ltac unwrap :=
  repeat match goal with
    | |- context [wrap ?z] => rewrite (wrap_small z) by lia
    | H : context [wrap ?z] |- _ => rewrite (wrap_small z) in H by lia
    end.

Lemma length_store (a : list Z) (i x : Z) : length (store a i x) = length a.
Proof. unfold store. apply length_insert. Qed.

Lemma load_store_same (a : list Z) (i x : Z) :
  0 <= i < Z.of_nat (length a) -> load (store a i x) i = x.
Proof.
  intros H. unfold load, store. rewrite nth_lookup.
  rewrite list_lookup_insert_eq by lia. reflexivity.
Qed.

Lemma load_store_other (a : list Z) (i j x : Z) :
  0 <= i -> 0 <= j -> i <> j -> load (store a i x) j = load a j.
Proof.
  intros Hi Hj Hne. unfold load, store. rewrite !nth_lookup.
  rewrite list_lookup_insert_ne by lia. reflexivity.
Qed.

Lemma load_store (a : list Z) (i j x : Z) :
  0 <= i < Z.of_nat (length a) -> 0 <= j ->
  load (store a i x) j = if j =? i then x else load a j.
Proof.
  intros Hi Hj. destruct (Z.eqb_spec j i) as [->|Hne].
  - now apply load_store_same.
  - apply load_store_other; lia.
Qed.

(** ** The [rank] scan *)

Lemma rank_loop_none (v : list Z) (x : Z) (todo : nat) (i : Z) :
  (forall k, i <= k < i + Z.of_nat todo -> Z.land (load v k) x <> x) ->
  rank_loop v x i todo = Fatal No_ancestor_in_v.
Proof.
  revert i. induction todo as [|todo IH]; intros i H; simpl.
  - reflexivity.
  - destruct (Z.eqb_spec (Z.land (load v i) x) x) as [E|_].
    + exfalso. apply (H i); [lia | exact E].
    + apply IH. intros k Hk. apply H. lia.
Qed.

Lemma rank_loop_first (v : list Z) (x : Z) (todo : nat) (i m : Z) :
  i <= m < i + Z.of_nat todo ->
  Z.land (load v m) x = x ->
  (forall k, i <= k < m -> Z.land (load v k) x <> x) ->
  rank_loop v x i todo = Ok m.
Proof.
  revert i. induction todo as [|todo IH]; intros i Hm Hx Hlt; simpl.
  - lia.
  - destruct (Z.eqb_spec (Z.land (load v i) x) x) as [E|NE].
    + destruct (Z.eq_dec i m) as [->|Hne]; [reflexivity|].
      exfalso. apply (Hlt i); [lia | exact E].
    + destruct (Z.eq_dec i m) as [->|Hne]; [contradiction|].
      apply IH; [lia | exact Hx |]. intros k Hk. apply Hlt. lia.
Qed.

Lemma rank_loop_ok (v : list Z) (x : Z) (todo : nat) (i m : Z) :
  rank_loop v x i todo = Ok m ->
  i <= m < i + Z.of_nat todo /\ Z.land (load v m) x = x /\
  (forall k, i <= k < m -> Z.land (load v k) x <> x).
Proof.
  revert i. induction todo as [|todo IH]; intros i H; simpl in H.
  - discriminate.
  - destruct (Z.eqb_spec (Z.land (load v i) x) x) as [E|NE].
    + injection H as <-. repeat split; [lia | lia | exact E | intros; lia].
    + apply IH in H. destruct H as (Hr & Hx & Hlt).
      repeat split; [lia | lia | exact Hx |].
      intros k Hk. destruct (Z.eq_dec k i) as [->|]; [exact NE|].
      apply Hlt. lia.
Qed.

Lemma rank_todo (n : Z) :
  2 <= n < 2 ^ 64 -> Z.of_nat (Z.to_nat (wrap (n - 2) + 1)) = n - 1.
Proof. intros H. unwrap. lia. Qed.

Lemma rank_first (n : Z) (v : list Z) (x m : Z) :
  2 <= n < 2 ^ 64 -> 0 <= m <= n - 2 ->
  Z.land (load v m) x = x ->
  (forall k, 0 <= k < m -> Z.land (load v k) x <> x) ->
  rank n v x = Ok m.
Proof.
  intros Hn Hm Hx Hlt. unfold rank. apply rank_loop_first; auto.
  rewrite rank_todo by lia. lia.
Qed.

Lemma rank_ok (n : Z) (v : list Z) (x m : Z) :
  2 <= n < 2 ^ 64 -> rank n v x = Ok m ->
  0 <= m <= n - 2 /\ Z.land (load v m) x = x /\
  (forall k, 0 <= k < m -> Z.land (load v k) x <> x).
Proof.
  intros Hn H. unfold rank in H. apply rank_loop_ok in H.
  rewrite rank_todo in H by lia. destruct H as (H1 & H2 & H3).
  repeat split; auto; lia.
Qed.

(** Some entry contains [x]: the scan stops at the first one. *)
Lemma rank_total (n : Z) (v : list Z) (x k : Z) :
  2 <= n < 2 ^ 64 -> 0 <= k <= n - 2 -> Z.land (load v k) x = x ->
  exists m, rank n v x = Ok m /\ 0 <= m <= k.
Proof.
  intros Hn Hk Hx.
  destruct (rank n v x) as [m|e] eqn:E.
  - exists m. split; [reflexivity|].
    destruct (rank_ok n v x m Hn E) as (Hm & _ & Hlt).
    destruct (Z_le_gt_dec m k) as [|Hgt]; [lia|].
    exfalso. apply (Hlt k); [lia | exact Hx].
  - exfalso. unfold rank in E.
    assert (Hsome : rank_loop v x 0 (Z.to_nat (wrap (n - 2) + 1)) <> Fatal e).
    { clear E.
      assert (G : forall todo i, i <= k < i + Z.of_nat todo ->
                  exists m, rank_loop v x i todo = Ok m).
      { induction todo as [|todo IH]; intros i Hi; simpl.
        - lia.
        - destruct (Z.eqb_spec (Z.land (load v i) x) x) as [_|NE]; [eauto|].
          apply IH. destruct (Z.eq_dec i k) as [->|]; [contradiction | lia]. }
      destruct (G (Z.to_nat (wrap (n - 2) + 1)) 0) as [m Hm].
      - rewrite rank_todo by lia. lia.
      - rewrite Hm. discriminate. }
    contradiction.
Qed.

(** ** Masks as sets of leaves *)

Lemma land_contains (a x : Z) :
  Z.land a x = x <->
  (forall k, 0 <= k -> Z.testbit x k = true -> Z.testbit a k = true).
Proof.
  split.
  - intros H k Hk Hx. rewrite <- H in Hx. rewrite Z.land_spec in Hx.
    now apply andb_true_iff in Hx.
  - intros H. apply Z.bits_inj'. intros k Hk. rewrite Z.land_spec.
    destruct (Z.testbit x k) eqn:E.
    + rewrite (H k Hk E). reflexivity.
    + apply andb_false_r.
Qed.

Lemma land_disjoint (a b : Z) :
  Z.land a b = 0 <->
  (forall k, 0 <= k -> Z.testbit a k = true -> Z.testbit b k = false).
Proof.
  split.
  - intros H k Hk Ha.
    assert (E : Z.testbit (Z.land a b) k = false) by (rewrite H; apply Z.bits_0).
    rewrite Z.land_spec, Ha in E. exact E.
  - intros H. apply Z.bits_inj'. intros k Hk.
    rewrite Z.land_spec, Z.bits_0.
    destruct (Z.testbit a k) eqn:E; [|reflexivity].
    rewrite (H k Hk E). reflexivity.
Qed.

Lemma ones_bit (n k : Z) :
  0 <= n -> 0 <= k -> Z.testbit (Z.ones n) k = (k <? n).
Proof.
  intros Hn Hk. destruct (Z.ltb_spec k n).
  - apply Z.ones_spec_low. lia.
  - apply Z.ones_spec_high. lia.
Qed.

Lemma pow2_bit (j k : Z) : 0 <= j -> Z.testbit (2 ^ j) k = (j =? k).
Proof. intros Hj. apply Z.pow2_bits_eqb. exact Hj. Qed.

Lemma contains_refl (a : Z) : Z.land a a = a.
Proof. apply Z.land_diag. Qed.

Lemma contains_trans (a b c : Z) :
  Z.land a b = b -> Z.land b c = c -> Z.land a c = c.
Proof.
  rewrite !land_contains. intros H1 H2 k Hk Hc. auto.
Qed.

Lemma contains_antisym (a b : Z) :
  Z.land a b = b -> Z.land b a = a -> a = b.
Proof.
  intros H1 H2. rewrite Z.land_comm in H2. congruence.
Qed.

(** ** The move never fails

    The scan for a child of [u] starts at rank [r-1], where [u] itself is
    stored, and [u & u == u]: the first entry visited is always accepted. *)

Lemma find_child_scan (T1 : list Z) (r : Z) :
  popcount64 (load T1 (wrap (r - 1))) <> 2 ->
  find_child T1 (load T1 (wrap (r - 1))) r = Ok (load T1 (wrap (r - 1))).
Proof.
  intros Hp. unfold find_child.
  destruct (Z.eqb_spec (popcount64 (load T1 (wrap (r - 1)))) 2) as [E|_];
    [contradiction|].
  assert (Hpos : 0 <= wrap (r - 1)) by apply wrap_range.
  destruct (Z.to_nat (wrap (r - 1) + 1)) as [|todo] eqn:E; [lia|].
  simpl. rewrite contains_refl, Z.eqb_refl. reflexivity.
Qed.

Lemma find_child_total (T1 : list Z) (r : Z) :
  exists x, find_child T1 (load T1 (wrap (r - 1))) r = Ok x.
Proof.
  destruct (Z.eq_dec (popcount64 (load T1 (wrap (r - 1)))) 2) as [E|NE].
  - unfold find_child. rewrite E. simpl. eauto.
  - rewrite find_child_scan by exact NE. eauto.
Qed.

(** The shape of a move: a swap of the two entries, or a new entry at
    [r-1] only. *)
Lemma move_shape (Ri : Z) (T1 : list Z) (r : Z) :
  (Z.land (load T1 r) (load T1 (wrap (r - 1))) = 0 /\
   move Ri T1 r =
     Ok (store (store T1 r (load T1 (wrap (r - 1)))) (wrap (r - 1)) (load T1 r)))
  \/
  (Z.land (load T1 r) (load T1 (wrap (r - 1))) <> 0 /\
   exists m, move Ri T1 r = Ok (store T1 (wrap (r - 1)) m)).
Proof.
  unfold move.
  destruct (Z.eqb_spec (Z.land (load T1 r) (load T1 (wrap (r - 1)))) 0) as [E|NE];
    simpl.
  - left. split; [exact E | reflexivity].
  - right. split; [exact NE|].
    destruct (find_child_total T1 r) as [x ->].
    destruct (Z.land Ri _ =? _); eauto.
Qed.

Lemma move_total (Ri : Z) (T1 : list Z) (r : Z) :
  exists T1', move Ri T1 r = Ok T1' /\ length T1' = length T1.
Proof.
  destruct (move_shape Ri T1 r) as [[_ ->]|[_ [m ->]]];
    eexists; (split; [reflexivity|]); now rewrite ?length_store.
Qed.

(** ** Running the transition system *)

Lemma run_add (a b : nat) (n : Z) (R : list Z) (s : state) :
  run (a + b) n R s = run b n R (run a n R s).
Proof.
  revert s. induction a as [|a IH]; intros s; simpl; [reflexivity | apply IH].
Qed.

Lemma run_final (k : nat) (n : Z) (R : list Z) (s : state) :
  final s = true -> run k n R s = s.
Proof.
  induction k as [|k IH]; intros H; simpl; [reflexivity|].
  destruct s; try discriminate; simpl; apply IH; reflexivity.
Qed.

Lemma run_deterministic (a b : nat) (n : Z) (R : list Z) (s : state) :
  final (run a n R s) = true -> final (run b n R s) = true ->
  run a n R s = run b n R s.
Proof.
  intros Ha Hb. destruct (Nat.le_ge_cases a b) as [H|H].
  - replace b with (a + (b - a))%nat by lia.
    rewrite run_add. rewrite (run_final (b - a)) by exact Ha. reflexivity.
  - replace a with (b + (a - b))%nat by lia.
    rewrite run_add. rewrite (run_final (a - b)) by exact Hb. reflexivity.
Qed.

Lemma visited_add (a b : nat) (n : Z) (R : list Z) (s : state) :
  visited (a + b) n R s = visited a n R s ++ visited b n R (run a n R s).
Proof.
  revert s. induction a as [|a IH]; intros s; simpl; [reflexivity|].
  now rewrite IH.
Qed.

Lemma outer_ranks_app (n : Z) (l1 l2 : list state) :
  outer_ranks n (l1 ++ l2) = outer_ranks n l1 ++ outer_ranks n l2.
Proof. unfold outer_ranks. apply omap_app. Qed.

(** The value returned does not depend on the fuel, once there is enough. *)
Lemma t64_rnni_distance_unique (a b : nat) (n : Z) (T R : list Z) (x y : result Z) :
  t64_rnni_distance a n T R = Some x ->
  t64_rnni_distance b n T R = Some y -> x = y.
Proof.
  unfold t64_rnni_distance. intros Ha Hb.
  assert (E : run a n R (start n T) = run b n R (start n T)).
  { apply run_deterministic.
    - destruct (run a n R (start n T)); try discriminate; reflexivity.
    - destruct (run b n R (start n T)); try discriminate; reflexivity. }
  rewrite E in Ha. rewrite Ha in Hb. now injection Hb.
Qed.

(** ** The distance loops never abort while the full mask is stored

    The mask with all [n] low bits stays somewhere in the working copy: a
    move at rank [r] only overwrites rank [r-1], and [r] never exceeds the
    rank where the full mask sits, since that entry contains every probed
    mask. *)

Section Loops.

Variables (n : Z) (R : list Z).
Hypothesis Hn : 2 <= n <= 64.
Hypothesis HR : forall i, 0 <= i <= n - 2 ->
  Z.land (Z.ones n) (load R i) = load R i.

Lemma rooted_weaken (T1 : list Z) (lo lo' : Z) :
  lo' <= lo -> rooted n T1 lo -> rooted n T1 lo'.
Proof.
  intros H [Hl (p & Hp & E)]. split; [exact Hl|]. exists p. split; [lia | exact E].
Qed.

Lemma move_rooted (Ri : Z) (T1 T1' : list Z) (r : Z) :
  0 < r -> rooted n T1 r -> move Ri T1 r = Ok T1' -> rooted n T1' (r - 1).
Proof.
  intros Hr [Hl (p & Hp & E)] Hm.
  assert (Hw : wrap (r - 1) = r - 1) by (apply wrap_small; lia).
  destruct (move_shape Ri T1 r) as [[Hd Hs]|[Hd [m Hs]]];
    rewrite Hs in Hm; injection Hm as <-; rewrite Hw in *.
  - split; [now rewrite !length_store|].
    destruct (Z.eq_dec p r) as [->|Hne].
    + exists (r - 1). split; [lia|].
      rewrite load_store_same by (rewrite length_store; lia). exact E.
    + exists p. split; [lia|].
      rewrite !load_store_other by lia. exact E.
  - split; [now rewrite length_store|].
    exists p. split; [lia|]. rewrite load_store_other by lia. exact E.
Qed.

Lemma step_inner_exit (i r : Z) (T1 : list Z) (d : Z) :
  r <= i -> step n R (Inner i r T1 d) = Outer (wrap (i - 1)) T1 d.
Proof.
  intros H. simpl. destruct (Z.gtb_spec r i); [lia | reflexivity].
Qed.

Lemma step_inner_move (i r : Z) (T1 : list Z) (d : Z) :
  i < r ->
  exists T1', move (load R i) T1 r = Ok T1' /\
    step n R (Inner i r T1 d) = Inner i (wrap (r - 1)) T1' (wrap (d + 1)).
Proof.
  intros H. destruct (move_total (load R i) T1 r) as (T1' & Hm & _).
  exists T1'. split; [exact Hm|]. simpl.
  destruct (Z.gtb_spec r i); [|lia]. now rewrite Hm.
Qed.

(** The [while] loop entered with [r = i + m] makes [m] moves. *)
Lemma inner_loop (m : nat) :
  forall i r T1 d,
    0 <= i -> r = i + Z.of_nat m -> rooted n T1 r ->
    0 <= d -> d + Z.of_nat m < 2 ^ 64 ->
    exists T1',
      run (S m) n R (Inner i r T1 d) =
        Outer (wrap (i - 1)) T1' (d + Z.of_nat m) /\
      rooted n T1' i /\
      outer_ranks n (visited (S m) n R (Inner i r T1 d)) = [].
Proof.
  induction m as [|m IH]; intros i r T1 d Hi Hr Hroot Hd Hdm.
  - exists T1. replace (d + Z.of_nat 0) with d by lia.
    assert (r = i) by lia. subst r.
    cbn [run]. rewrite step_inner_exit by lia.
    split; [reflexivity|]. split; [eapply rooted_weaken; [|exact Hroot]; lia|].
    unfold outer_ranks. reflexivity.
  - destruct (step_inner_move i r T1 d) as (T1' & Hm & Hs); [lia|].
    assert (Hroot' : rooted n T1' (r - 1)) by (eapply move_rooted; eauto; lia).
    destruct Hroot as [Hl (p & Hp & _)].
    rewrite (wrap_small (r - 1)) in Hs by lia.
    rewrite (wrap_small (d + 1)) in Hs by lia.
    destruct (IH i (r - 1) T1' (d + 1)) as (T2 & Hrun & Hroot2 & Hv);
      try lia; [exact Hroot'|].
    exists T2.
    change (run (S (S m)) n R (Inner i r T1 d))
      with (run (S m) n R (step n R (Inner i r T1 d))).
    change (visited (S (S m)) n R (Inner i r T1 d))
      with (Inner i r T1 d :: visited (S m) n R (step n R (Inner i r T1 d))).
    rewrite Hs, Hrun. split; [f_equal; lia|]. split; [exact Hroot2|].
    unfold outer_ranks in *. simpl. exact Hv.
Qed.

(** One pass of the outer loop. *)
Lemma outer_pass (i : Z) (T1 : list Z) (d : Z) :
  0 <= i <= n - 2 -> rooted n T1 0 -> 0 <= d -> d + 64 < 2 ^ 64 ->
  exists k m T1',
    run k n R (Outer i T1 d) = Outer (wrap (i - 1)) T1' (d + m) /\
    0 <= m <= n - 2 - i /\ rooted n T1' 0 /\
    outer_ranks n (visited k n R (Outer i T1 d)) = [i].
Proof.
  intros Hi Hroot Hd Hd64.
  assert (Hlt : (i <? wrap (n - 1)) = true).
  { rewrite wrap_small by lia. apply Z.ltb_lt. lia. }
  destruct Hroot as [Hl (p & Hp & E)].
  destruct (rank_total n T1 (load R i) p) as (r & Hrank & Hr); [lia | lia | |].
  { rewrite E. apply HR. lia. }
  assert (Hstep : step n R (Outer i T1 d) = Inner i r T1 d).
  { simpl. now rewrite Hlt, Hrank. }
  assert (Hout : outer_rank n (Outer i T1 d) = Some i).
  { simpl. now rewrite Hlt. }
  destruct (Z_le_gt_dec r i) as [Hle|Hgt].
  - exists 2%nat, 0, T1. cbn [run]. rewrite Hstep, step_inner_exit by lia.
    split; [f_equal; lia|]. split; [lia|].
    split; [split; [exact Hl | exists p; split; [lia | exact E]]|].
    unfold outer_ranks. cbn [visited]. rewrite Hstep.
    cbn [omap list_omap]. rewrite Hout. reflexivity.
  - destruct (inner_loop (Z.to_nat (r - i)) i r T1 d) as (T1' & Hrun & Hroot' & Hv);
      try lia.
    { split; [exact Hl | exists p; split; [lia | exact E]]. }
    exists (S (S (Z.to_nat (r - i)))), (r - i), T1'.
    change (run (S (S (Z.to_nat (r - i)))) n R (Outer i T1 d))
      with (run (S (Z.to_nat (r - i))) n R (step n R (Outer i T1 d))).
    rewrite Hstep, Hrun. split; [f_equal; lia|]. split; [lia|].
    split; [eapply rooted_weaken; [|exact Hroot']; lia|].
    change (visited (S (S (Z.to_nat (r - i)))) n R (Outer i T1 d))
      with (Outer i T1 d :: visited (S (Z.to_nat (r - i))) n R (step n R (Outer i T1 d))).
    rewrite Hstep. unfold outer_ranks in *. cbn [omap list_omap].
    rewrite Hout, Hv. reflexivity.
Qed.

Lemma rev_ranks_S (c : nat) :
  rev (map Z.of_nat (seq 0 (S c))) = Z.of_nat c :: rev (map Z.of_nat (seq 0 c)).
Proof.
  rewrite seq_S, map_app, rev_app_distr. reflexivity.
Qed.

(** All passes from rank [c-1] down to rank 0, then the exit. *)
Lemma outer_loop (c : nat) :
  forall T1 d,
    Z.of_nat c <= n - 1 -> rooted n T1 0 ->
    0 <= d -> d + Z.of_nat c * 64 + 64 < 2 ^ 64 ->
    exists k d',
      run k n R (Outer (wrap (Z.of_nat c - 1)) T1 d) = Done d' /\
      d <= d' /\
      2 * (d' - d) <= Z.of_nat c * (2 * (n - 2) - (Z.of_nat c - 1)) /\
      outer_ranks n (visited k n R (Outer (wrap (Z.of_nat c - 1)) T1 d))
        = rev (map Z.of_nat (seq 0 c)).
Proof.
  induction c as [|c IH]; intros T1 d Hc Hroot Hd Hd64.
  - exists 1%nat, d. 
    assert (Hlt : (wrap (0 - 1) <? wrap (n - 1)) = false).
    { rewrite wrap_pred_zero, wrap_small by lia. apply Z.ltb_ge. lia. }
    change (Z.of_nat 0 - 1) with (0 - 1).
    cbn [run visited]. unfold outer_ranks. cbn [omap list_omap outer_rank step].
    rewrite Hlt. repeat split; lia.
  - replace (Z.of_nat (S c) - 1) with (Z.of_nat c) by lia.
    rewrite wrap_small by lia.
    destruct (outer_pass (Z.of_nat c) T1 d) as (k1 & m & T1' & Hrun1 & Hm & Hroot' & Hv1);
      try lia; [exact Hroot|].
    destruct (IH T1' (d + m)) as (k2 & d' & Hrun2 & Hd' & Hbound & Hv2);
      try lia; [exact Hroot'|].
    exists (k1 + k2)%nat, d'.
    rewrite run_add, Hrun1, Hrun2.
    rewrite visited_add, outer_ranks_app, Hv1, Hrun1, Hv2, rev_ranks_S.
    repeat split; try lia. 
Qed.

End Loops.

(** * The structure of a ranked tree

    The invariants are local (each node has two children among the leaves
    and the earlier nodes).  Unfolding them from the root gives a binary
    tree over the [n] leaves; it has [n-1] inner nodes at pairwise different
    ranks, hence it contains every stored node.  So the stored masks are
    pairwise disjoint or nested, and a node that contains another one has
    the larger rank. *)

Lemma in_ranks (n k : Z) : In k (ranks n) <-> 0 <= k <= n - 2.
Proof.
  unfold ranks. rewrite in_map_iff. split.
  - intros (i & <- & Hi). apply in_seq in Hi. lia.
  - intros H. exists (Z.to_nat k). split; [lia|]. apply in_seq. lia.
Qed.

Lemma length_ranks (n : Z) : length (ranks n) = Z.to_nat (n - 1).
Proof. unfold ranks. now rewrite length_map, length_seq. Qed.

Lemma NoDup_ranks (n : Z) : List.NoDup (ranks n).
Proof.
  unfold ranks. apply Finite.Injective_map_NoDup.
  - intros a b H. lia.
  - apply List.seq_NoDup.
Qed.

Section Shapes.

Variables (n : Z) (v : list Z).

Lemma built_mask (t : shape) :
  built n v t -> 0 <= top t -> mask t = load v (top t).
Proof. destruct t; simpl; intros H Ht; [lia | symmetry; apply H]. Qed.

Lemma built_leaves_range (t : shape) (k : Z) :
  built n v t -> In k (leaves_of t) -> 0 <= k < n.
Proof.
  induction t as [j|r a IHa b IHb]; simpl; intros H Hk.
  - destruct Hk as [<-|[]]. exact H.
  - destruct H as (_ & _ & _ & _ & _ & Ha & Hb).
    apply in_app_iff in Hk. destruct Hk; auto.
Qed.

Lemma mask_bits (t : shape) (k : Z) :
  built n v t -> 0 <= k ->
  (Z.testbit (mask t) k = true <-> In k (leaves_of t)).
Proof.
  induction t as [j|r a IHa b IHb]; simpl; intros H Hk.
  - rewrite pow2_bit by lia. rewrite Z.eqb_eq. intuition lia.
  - destruct H as (_ & _ & _ & _ & _ & Ha & Hb).
    rewrite Z.lor_spec, orb_true_iff, in_app_iff, IHa, IHb by assumption.
    reflexivity.
Qed.

Lemma leaves_count (t : shape) :
  length (leaves_of t) = S (length (nodes_of t)).
Proof.
  induction t as [j|r a IHa b IHb]; simpl; [reflexivity|].
  rewrite !length_app, IHa, IHb. lia.
Qed.

Lemma leaves_NoDup (t : shape) : built n v t -> List.NoDup (leaves_of t).
Proof.
  induction t as [j|r a IHa b IHb]; simpl; intros H.
  - constructor; [intros [] | constructor].
  - destruct H as (_ & _ & Hd & _ & _ & Ha & Hb).
    apply List.NoDup_app; auto.
    intros k Hka Hkb.
    assert (Hk : 0 <= k) by (apply (built_leaves_range a k Ha Hka)).
    apply (mask_bits a k Ha Hk) in Hka. apply (mask_bits b k Hb Hk) in Hkb.
    rewrite land_disjoint in Hd. rewrite (Hd k Hk Hka) in Hkb. discriminate.
Qed.

Lemma nodes_below (t : shape) (j : Z) :
  built n v t -> In j (nodes_of t) -> 0 <= j <= top t.
Proof.
  induction t as [k|r a IHa b IHb]; simpl; intros H Hj; [contradiction|].
  destruct H as (Hr & _ & _ & Hta & Htb & Ha & Hb).
  destruct Hj as [<-|Hj]; [lia|].
  apply in_app_iff in Hj. destruct Hj as [Hj|Hj].
  - specialize (IHa Ha Hj). lia.
  - specialize (IHb Hb Hj). lia.
Qed.

(** A node of the unfolding lies inside the mask of the unfolding. *)
Lemma nodes_inside (t : shape) (j : Z) :
  built n v t -> In j (nodes_of t) -> Z.land (mask t) (load v j) = load v j.
Proof.
  induction t as [k|r a IHa b IHb]; intros H Hj; [contradiction|].
  simpl in H. destruct H as (Hr & Hm & _ & _ & _ & Ha & Hb).
  simpl in Hj. destruct Hj as [<-|Hj].
  - simpl. rewrite Hm. apply contains_refl.
  - apply in_app_iff in Hj. simpl. apply land_contains. intros k Hk Hbit.
    rewrite Z.lor_spec. apply orb_true_iff.
    destruct Hj as [Hj|Hj].
    + left. specialize (IHa Ha Hj). rewrite land_contains in IHa. auto.
    + right. specialize (IHb Hb Hj). rewrite land_contains in IHb. auto.
Qed.

Lemma leaves_nonempty (t : shape) : exists k, In k (leaves_of t).
Proof.
  induction t as [j|r a [k Hk] b _]; simpl.
  - exists j. now left.
  - exists k. apply in_app_iff. now left.
Qed.

Lemma mask_nonzero (t : shape) : built n v t -> mask t <> 0.
Proof.
  intros H E. destruct (leaves_nonempty t) as [k Hk].
  assert (Hk0 : 0 <= k) by (apply (built_leaves_range t k H Hk)).
  apply (mask_bits t k H Hk0) in Hk. rewrite E, Z.bits_0 in Hk. discriminate.
Qed.

End Shapes.

Lemma inside_disjoint_zero (a b x : Z) :
  Z.land a b = 0 -> Z.land a x = x -> Z.land b x = x -> x = 0.
Proof.
  intros Hd Ha Hb. rewrite <- Ha, <- Hb, Z.land_assoc, Hd. apply Z.land_0_l.
Qed.

Lemma inside_disjoint (a b x y : Z) :
  Z.land a b = 0 -> Z.land a x = x -> Z.land b y = y -> Z.land x y = 0.
Proof.
  intros Hd Ha Hb. rewrite land_disjoint in *. rewrite land_contains in *.
  intros k Hk Hx. destruct (Z.testbit y k) eqn:Hy; [|reflexivity].
  rewrite <- (Hd k Hk (Ha k Hk Hx)). symmetry. auto.
Qed.

Section Related.

Variables (n : Z) (v : list Z).

Lemma node_nonzero (t : shape) (j : Z) :
  built n v t -> In j (nodes_of t) -> load v j <> 0.
Proof.
  induction t as [k|r a IHa b IHb]; intros H Hj; [contradiction|].
  pose proof (mask_nonzero n v _ H) as Hnz.
  simpl in H. destruct H as (Hr & Hm & _ & _ & _ & Ha & Hb).
  simpl in Hj. destruct Hj as [<-|Hj].
  - rewrite Hm. exact Hnz.
  - apply in_app_iff in Hj. destruct Hj; auto.
Qed.

Lemma nodes_NoDup (t : shape) : built n v t -> List.NoDup (nodes_of t).
Proof.
  induction t as [k|r a IHa b IHb]; intros H; [constructor|].
  pose proof H as H0.
  simpl in H. destruct H as (Hr & Hm & Hd & Hta & Htb & Ha & Hb).
  simpl. constructor.
  - intros Hin. apply in_app_iff in Hin. destruct Hin as [Hin|Hin].
    + pose proof (nodes_below n v a r Ha Hin). lia.
    + pose proof (nodes_below n v b r Hb Hin). lia.
  - apply List.NoDup_app; auto.
    intros j Hja Hjb.
    apply (node_nonzero a j Ha Hja).
    apply (inside_disjoint_zero (mask a) (mask b));
      [exact Hd | now apply nodes_inside with (n := n)
                | now apply nodes_inside with (n := n)].
Qed.

Lemma nodes_related (t : shape) :
  built n v t ->
  forall i j, In i (nodes_of t) -> In j (nodes_of t) -> related v i j.
Proof.
  induction t as [k|r a IHa b IHb]; intros H i j Hi Hj; [contradiction|].
  simpl in H. destruct H as (Hr & Hm & Hd & Hta & Htb & Ha & Hb).
  assert (Hsub : forall c, (c = a \/ c = b) -> built n v c -> forall m,
            In m (nodes_of c) ->
            Z.land (load v r) (load v m) = load v m /\ m <= r).
  { intros c Hc Hbc m Hin. split.
    - pose proof (nodes_inside n v c m Hbc Hin) as Hins.
      rewrite Hm. rewrite land_contains in *. intros p Hp Hbit.
      rewrite Z.lor_spec. apply orb_true_iff.
      destruct Hc as [->| ->]; [left | right]; auto.
    - pose proof (nodes_below n v c m Hbc Hin).
      destruct Hc as [->| ->]; lia. }
  simpl in Hi, Hj.
  destruct Hi as [<-|Hi]; destruct Hj as [<-|Hj].
  - right. left. split; [apply contains_refl | lia].
  - right. right. apply in_app_iff in Hj.
    destruct Hj as [Hj|Hj]; [apply (Hsub a) | apply (Hsub b)]; auto.
  - right. left. apply in_app_iff in Hi.
    destruct Hi as [Hi|Hi]; [apply (Hsub a) | apply (Hsub b)]; auto.
  - apply in_app_iff in Hi. apply in_app_iff in Hj.
    destruct Hi as [Hi|Hi]; destruct Hj as [Hj|Hj]; auto.
    + left. apply (inside_disjoint (mask a) (mask b));
        [exact Hd | now apply nodes_inside with (n := n)
                  | now apply nodes_inside with (n := n)].
    + left. rewrite Z.land_comm.
      apply (inside_disjoint (mask a) (mask b));
        [exact Hd | now apply nodes_inside with (n := n)
                  | now apply nodes_inside with (n := n)].
Qed.

Hypothesis Hn : 2 <= n <= 64.
Hypothesis Hroot : load v (n - 2) = Z.ones n.
Hypothesis Hchildren : forall r, 0 <= r <= n - 2 ->
  exists a b, earlier n v r a /\ earlier n v r b /\
              Z.land a b = 0 /\ Z.lor a b = load v r.

(** Every stored node unfolds down to the leaves. *)
Lemma unfold_node (m : nat) :
  forall r, 0 <= r < Z.of_nat m -> r <= n - 2 ->
    exists t, built n v t /\ top t = r.
Proof.
  induction m as [|m IH]; intros r Hr Hr'; [lia|].
  assert (Hearlier : forall a, earlier n v r a ->
            exists t, built n v t /\ top t < r /\ mask t = a).
  { intros a [(k & Hk & ->)|(j & Hj & ->)].
    - exists (Lf k). simpl. repeat split; lia.
    - destruct (IH j) as (t & Hb & Ht); try lia.
      exists t. repeat split; [exact Hb | lia |].
      rewrite <- Ht. apply built_mask with (n := n); [exact Hb | lia]. }
  destruct (Hchildren r) as (a & b & Ha & Hb & Hd & Hu); [lia|].
  destruct (Hearlier a Ha) as (ta & Hba & Hta & <-).
  destruct (Hearlier b Hb) as (tb & Hbb & Htb & <-).
  exists (Nd r ta tb). simpl. repeat split; auto; lia.
Qed.

(** The unfolding of the root contains every rank. *)
Lemma unfold_root :
  exists t, built n v t /\ mask t = Z.ones n /\
            forall r, 0 <= r <= n - 2 -> In r (nodes_of t).
Proof.
  destruct (unfold_node (Z.to_nat (n - 1)) (n - 2)) as (t & Hb & Ht); try lia.
  assert (Hm : mask t = Z.ones n).
  { rewrite <- Hroot, <- Ht. apply built_mask with (n := n); [exact Hb | lia]. }
  exists t. split; [exact Hb|]. split; [exact Hm|].
  assert (Hleaves : length (leaves_of t) = Z.to_nat n).
  { transitivity (length (ranks (n + 1)));
      [|rewrite length_ranks; f_equal; lia].
    apply Permutation_length, Permutation.NoDup_Permutation.
    - now apply leaves_NoDup with (n := n) (v := v).
    - apply NoDup_ranks.
    - intros k. rewrite in_ranks. split.
      + intros Hk. pose proof (built_leaves_range n v t k Hb Hk). lia.
      + intros Hk. apply (mask_bits n v t k Hb); [lia|].
        rewrite Hm, ones_bit by lia. apply Z.ltb_lt. lia. }
  assert (Hincl : incl (ranks n) (nodes_of t)).
  { apply List.NoDup_length_incl.
    - now apply nodes_NoDup.
    - rewrite length_ranks. pose proof (leaves_count t). lia.
    - intros j Hj. apply in_ranks.
      pose proof (nodes_below n v t j Hb Hj). lia. }
  intros r Hr. apply Hincl, in_ranks. exact Hr.
Qed.

Lemma stored_related (i j : Z) :
  0 <= i <= n - 2 -> 0 <= j <= n - 2 -> related v i j.
Proof.
  intros Hi Hj. destruct unfold_root as (t & Hb & _ & Hall).
  apply (nodes_related t Hb); auto.
Qed.

Lemma stored_nonzero (i : Z) : 0 <= i <= n - 2 -> load v i <> 0.
Proof.
  intros Hi. destruct unfold_root as (t & Hb & _ & Hall).
  apply (node_nonzero t i Hb); auto.
Qed.

Lemma stored_inside (i : Z) :
  0 <= i <= n - 2 -> Z.land (Z.ones n) (load v i) = load v i.
Proof.
  intros Hi. destruct unfold_root as (t & Hb & Hm & Hall).
  rewrite <- Hm. apply nodes_inside with (n := n); auto.
Qed.

Hypothesis Hdistinct : forall r s, 0 <= r <= n - 2 -> 0 <= s <= n - 2 ->
  load v r = load v s -> r = s.

(** A stored node that contains another one has the larger rank. *)
Lemma contains_rank_le (i j : Z) :
  0 <= i <= n - 2 -> 0 <= j <= n - 2 ->
  Z.land (load v j) (load v i) = load v i -> i <= j.
Proof.
  intros Hi Hj Hc.
  destruct (stored_related i j Hi Hj) as [Hd|[[_ H]|[Hc' H]]].
  - exfalso. apply (stored_nonzero i Hi).
    rewrite <- Hc, Z.land_comm. exact Hd.
  - exact H.
  - assert (E : load v j = load v i) by now apply contains_antisym.
    rewrite (Hdistinct j i Hj Hi E). lia.
Qed.

End Related.

(** ** Soundness of the checker *)

Lemma in_leaf_masks (n m : Z) : In m (leaf_masks n) <-> leaf_mask n m.
Proof.
  unfold leaf_masks, leaf_mask. rewrite in_map_iff. split.
  - intros (k & <- & Hk). apply in_seq in Hk. exists (Z.of_nat k). split; [lia | reflexivity].
  - intros (k & Hk & ->). exists (Z.to_nat k). split.
    + f_equal. lia.
    + apply in_seq. lia.
Qed.

Lemma in_earlier_masks (n : Z) (v : list Z) (r m : Z) :
  In m (earlier_masks n v r) -> earlier n v r m.
Proof.
  unfold earlier_masks, earlier. rewrite in_app_iff, in_leaf_masks.
  intros [H|H]; [now left | right].
  apply in_map_iff in H. destruct H as (j & <- & Hj).
  apply in_map_iff in Hj. destruct Hj as (k & <- & Hk). apply in_seq in Hk.
  exists (Z.of_nat k). split; [lia | reflexivity].
Qed.

Lemma has_children_sound (n : Z) (v : list Z) (r : Z) :
  has_children n v r = true ->
  exists a b, earlier n v r a /\ earlier n v r b /\
              Z.land a b = 0 /\ Z.lor a b = load v r.
Proof.
  unfold has_children. intros H.
  apply existsb_exists in H. destruct H as (a & Ha & H).
  apply existsb_exists in H. destruct H as (b & Hb & H).
  apply andb_true_iff in H. destruct H as [H1 H2].
  exists a, b. repeat split; auto using in_earlier_masks; lia.
Qed.

Lemma ranked_treeb_sound (n : Z) (v : list Z) :
  ranked_treeb n v = true -> RankedTree n v.
Proof.
  unfold ranked_treeb. intros H.
  repeat (apply andb_true_iff in H; destruct H as [H ?]).
  rename H0 into Hall.
  rewrite forallb_forall in Hall.
  assert (Hat : forall r, 0 <= r <= n - 2 ->
            has_children n v r = true /\
            existsb (Z.eqb (load v r)) (leaf_masks n) = false /\
            forall s, 0 <= s <= n - 2 -> load v r = load v s -> r = s).
  { intros r Hr. specialize (Hall r (proj2 (in_ranks n r) Hr)).
    apply andb_true_iff in Hall. destruct Hall as [Hall Hd].
    apply andb_true_iff in Hall. destruct Hall as [Hc Hl].
    split; [exact Hc|]. split; [now apply negb_true_iff|].
    intros s Hs E. rewrite forallb_forall in Hd.
    specialize (Hd s (proj2 (in_ranks n s) Hs)).
    apply orb_true_iff in Hd. destruct Hd as [Hd|Hd]; [lia|].
    apply negb_true_iff in Hd. lia. }
  constructor.
  - lia.
  - lia.
  - lia.
  - intros r Hr. apply has_children_sound. now apply Hat.
  - intros r Hr Hleaf. destruct (Hat r Hr) as (_ & Hl & _).
    apply in_leaf_masks in Hleaf.
    assert (Ht : existsb (Z.eqb (load v r)) (leaf_masks n) = true).
    { apply existsb_exists. exists (load v r). split; [exact Hleaf | apply Z.eqb_refl]. }
    congruence.
  - intros r s Hr Hs E. destruct (Hat r Hr) as (_ & _ & Hd). now apply Hd.
Qed.

(** ** Consequences for ranked trees *)

Lemma ranked_inside (n : Z) (v : list Z) (i : Z) :
  RankedTree n v -> 0 <= i <= n - 2 ->
  Z.land (Z.ones n) (load v i) = load v i.
Proof.
  intros [Hn _ Hroot Hch _ _] Hi. now apply stored_inside.
Qed.

Lemma ranked_related (n : Z) (v : list Z) (i j : Z) :
  RankedTree n v -> 0 <= i <= n - 2 -> 0 <= j <= n - 2 -> related v i j.
Proof.
  intros [Hn _ Hroot Hch _ _] Hi Hj. now apply stored_related with (n := n).
Qed.

Lemma ranked_contains_le (n : Z) (v : list Z) (i j : Z) :
  RankedTree n v -> 0 <= i <= n - 2 -> 0 <= j <= n - 2 ->
  Z.land (load v j) (load v i) = load v i -> i <= j.
Proof.
  intros [Hn _ Hroot Hch _ Hd] Hi Hj. now apply contains_rank_le with (n := n).
Qed.

(** In a ranked tree the node at rank [i] is its own first container. *)
Lemma rank_self (n : Z) (v : list Z) (i : Z) :
  RankedTree n v -> 0 <= i <= n - 2 -> rank n v (load v i) = Ok i.
Proof.
  intros Ht Hi. pose proof (rt_leaves _ _ Ht) as Hn.
  apply rank_first; [lia | lia | apply contains_refl |].
  intros k Hk Hc.
  pose proof (ranked_contains_le n v i k Ht Hi ltac:(lia) Hc). lia.
Qed.

Lemma ranked_rooted (n : Z) (T : list Z) :
  RankedTree n T -> rooted n (firstn (Z.to_nat (n - 1)) T) 0.
Proof.
  intros Ht. pose proof (rt_leaves _ _ Ht) as Hn.
  pose proof (rt_length _ _ Ht) as Hl.
  rewrite firstn_all2 by lia.
  split; [exact Hl|]. exists (n - 2). split; [lia | apply (rt_root _ _ Ht)].
Qed.

Lemma start_ranked (n : Z) (T : list Z) :
  RankedTree n T -> start n T = Outer (wrap (n - 1 - 1)) T 0.
Proof.
  intros Ht. pose proof (rt_leaves _ _ Ht) as Hn.
  pose proof (rt_length _ _ Ht) as Hl.
  unfold start.
  destruct (Z.ltb_spec 1 n); [|lia]. destruct (Z.leb_spec n 64); [|lia].
  simpl. rewrite firstn_all2 by lia. do 2 f_equal. lia.
Qed.

(** * Properties of [rank] *)

(** C10: for every tree array [v] and every [n >= 2], [rank(n, v, 0)]
    returns 0 and does not reach the fatal branch, since [(v[0] & 0) == 0];
    the empty mask is accepted although in a ranked tree it is neither a
    stored node nor a leaf mask. *)
Theorem rank_empty_mask (n : Z) (v : list Z) :
  2 <= n ->
  rank n v 0 = Ok 0 /\
  (forall e, rank n v 0 <> Fatal e) /\
  (RankedTree n v ->
     (forall i, 0 <= i <= n - 2 -> load v i <> 0) /\ ~ leaf_mask n 0).
Proof.
  intros Hn.
  assert (E : rank n v 0 = Ok 0).
  { unfold rank. pose proof (wrap_range (n - 2)) as Hw.
    destruct (Z.to_nat (wrap (n - 2) + 1)) as [|todo] eqn:Et; [lia|].
    simpl. rewrite Z.land_0_r. reflexivity. }
  split; [exact E|]. split; [rewrite E; discriminate|].
  intros [Hn' _ Hroot Hch _ _]. split.
  - intros i Hi. now apply stored_nonzero with (n := n).
  - intros (k & Hk & E0). symmetry in E0. revert E0.
    apply Z.pow_nonzero; lia.
Qed.

Lemma rank_empty_mask_witness :
  2 <= 4 /\ rank 4 [3; 12; 15] 0 = Ok 0.
Proof.
  split; [lia|]. apply (rank_empty_mask 4 [3; 12; 15]). lia.
Defined.

(** C6: if no entry of the tree array contains the probed mask [x], [rank]
    ends in its fatal branch; a distance computation that reaches such a
    probe aborts with it and returns no distance. *)
Theorem rank_no_ancestor_fatal (n : Z) (v : list Z) (x : Z) :
  2 <= n <= 64 ->
  (forall i, 0 <= i <= n - 2 -> Z.land (load v i) x <> x) ->
  rank n v x = Fatal No_ancestor_in_v /\
  (forall R i d fuel, 0 <= i <= n - 2 -> load R i = x ->
     run (S fuel) n R (Outer i v d) = Abort No_ancestor_in_v) /\
  (forall T R k i d, run k n R (start n T) = Outer i v d ->
     0 <= i <= n - 2 -> load R i = x ->
     t64_rnni_distance (S k) n T R = Some (Fatal No_ancestor_in_v) /\
     forall fuel d', t64_rnni_distance fuel n T R <> Some (Ok d')).
Proof.
  intros Hn Hno.
  assert (E : rank n v x = Fatal No_ancestor_in_v).
  { unfold rank. apply rank_loop_none. rewrite rank_todo by lia.
    intros k Hk. apply Hno. lia. }
  assert (Hrun : forall R i d fuel, 0 <= i <= n - 2 -> load R i = x ->
            run (S fuel) n R (Outer i v d) = Abort No_ancestor_in_v).
  { intros R i d fuel Hi Hx. cbn [run].
    assert (Hs : step n R (Outer i v d) = Abort No_ancestor_in_v).
    { simpl. rewrite wrap_small by lia.
      destruct (Z.ltb_spec i (n - 1)); [|lia]. now rewrite Hx, E. }
    rewrite Hs. now apply run_final. }
  split; [exact E|]. split; [exact Hrun|].
  intros T R k i d Hk Hi Hx.
  assert (Hab : t64_rnni_distance (S k) n T R = Some (Fatal No_ancestor_in_v)).
  { unfold t64_rnni_distance. replace (S k) with (k + 1)%nat by lia.
    rewrite run_add, Hk, (Hrun R i d 0%nat Hi Hx). reflexivity. }
  split; [exact Hab|].
  intros fuel d' Hd.
  pose proof (t64_rnni_distance_unique _ _ _ _ _ _ _ Hab Hd). discriminate.
Qed.

Lemma rank_no_ancestor_fatal_witness :
  rank 4 [3; 12; 15] 16 = Fatal No_ancestor_in_v.
Proof.
  apply (rank_no_ancestor_fatal 4 [3; 12; 15] 16); [lia|].
  intros i Hi.
  assert (Hc : i = 0 \/ i = 1 \/ i = 2) by lia.
  destruct Hc as [->|[->| ->]]; vm_compute; discriminate.
Defined.

(** C4: [rank(n, v, x)] returns the smallest index [i] in [0, n-2] with
    [(v[i] & x) == x]; in a ranked tree, for a non-empty [x], the node found
    lies inside every stored node that contains [x], and it is the only
    stored node that does: the unique minimal ancestor-or-equal of [x]. *)
Theorem rank_smallest (n : Z) (v : list Z) (x : Z) :
  2 <= n <= 64 ->
  (exists k, 0 <= k <= n - 2 /\ Z.land (load v k) x = x) ->
  exists i,
    rank n v x = Ok i /\ 0 <= i <= n - 2 /\ Z.land (load v i) x = x /\
    (forall j, 0 <= j <= n - 2 -> Z.land (load v j) x = x -> i <= j) /\
    (RankedTree n v -> x <> 0 ->
     (forall j, 0 <= j <= n - 2 -> Z.land (load v j) x = x ->
        Z.land (load v j) (load v i) = load v i) /\
     (forall m, 0 <= m <= n - 2 -> Z.land (load v m) x = x ->
        (forall j, 0 <= j <= n - 2 -> Z.land (load v j) x = x ->
           Z.land (load v j) (load v m) = load v m) ->
        m = i)).
Proof.
  intros Hn (k & Hk & Hx).
  destruct (rank_total n v x k) as (i & Hrank & Hik); [lia | lia | exact Hx |].
  destruct (rank_ok n v x i) as (Hi & Hxi & Hfirst); [lia | exact Hrank |].
  assert (Hmin : forall j, 0 <= j <= n - 2 -> Z.land (load v j) x = x -> i <= j).
  { intros j Hj Hxj. destruct (Z_le_gt_dec i j) as [|Hgt]; [assumption|].
    exfalso. apply (Hfirst j); [lia | exact Hxj]. }
  exists i. split; [exact Hrank|]. split; [lia|]. split; [exact Hxi|].
  split; [exact Hmin|]. intros Ht Hnz. split.
  - intros j Hj Hxj.
    destruct (ranked_related n v i j Ht Hi Hj) as [Hd|[[Hc _]|[Hc Hji]]].
    + exfalso. apply Hnz.
      apply (inside_disjoint_zero (load v i) (load v j)); assumption.
    + exact Hc.
    + pose proof (Hmin j Hj Hxj). assert (j = i) by lia. subst j.
      apply contains_refl.
  - intros m Hm Hxm Hleast.
    pose proof (Hmin m Hm Hxm) as Him.
    pose proof (Hleast i Hi Hxi) as Hmi.
    pose proof (ranked_contains_le n v m i Ht Hm Hi Hmi). lia.
Qed.

Lemma rank_smallest_witness :
  rank 4 [3; 12; 15] 4 = Ok 1 /\
  Z.land (load [3; 12; 15] 2) (load [3; 12; 15] 1) = load [3; 12; 15] 1.
Proof.
  destruct (rank_smallest 4 [3; 12; 15] 4) as (i & Hr & Hi & Hx & Hmin & Hleast).
  - lia.
  - exists 1. split; [lia | reflexivity].
  - assert (E : i = 1) by (vm_compute in Hr; now injection Hr as <-).
    subst i. split; [exact Hr|].
    apply Hleast; [apply ranked_treeb_sound; reflexivity | discriminate
                  | lia | reflexivity].
Defined.

(** * Properties of the distance loops *)

(** C7: an elementary move of the distance loop changes the working copy at
    ranks [r] and [r-1] only, and in the nested case ([v & u != 0]) the
    entry at rank [r] is left as it was. *)
Theorem move_frame (n : Z) (R T1 : list Z) (i r d : Z) :
  0 <= i < r -> r < 2 ^ 64 ->
  exists T1',
    step n R (Inner i r T1 d) = Inner i (r - 1) T1' (wrap (d + 1)) /\
    length T1' = length T1 /\
    (forall k, 0 <= k -> k <> r -> k <> r - 1 -> load T1' k = load T1 k) /\
    (Z.land (load T1 r) (load T1 (r - 1)) <> 0 -> load T1' r = load T1 r).
Proof.
  intros Hi Hr.
  assert (Hw : wrap (r - 1) = r - 1) by (apply wrap_small; lia).
  assert (Hgt : (r >? i) = true) by (apply Z.gtb_lt; lia).
  simpl. rewrite Hgt.
  destruct (move_shape (load R i) T1 r) as [[Hd Hs]|[Hd [m Hs]]];
    rewrite Hs, Hw in *; eexists; (split; [reflexivity|]).
  - split; [now rewrite !length_store|]. split.
    + intros k Hk Hkr Hkr'. rewrite !load_store_other by lia. reflexivity.
    + intros Hnz. contradiction.
  - split; [now rewrite length_store|]. split.
    + intros k Hk Hkr Hkr'. rewrite load_store_other by lia. reflexivity.
    + intros _. rewrite load_store_other by lia. reflexivity.
Qed.

Lemma move_frame_witness :
  exists T1',
    step 4 [3; 11; 15] (Inner 1 2 [3; 7; 15] 0) = Inner 1 1 T1' (wrap 1) /\
    load T1' 0 = 3 /\ load T1' 2 = 15.
Proof.
  destruct (move_frame 4 [3; 11; 15] [3; 7; 15] 1 2 0) as (T1' & Hs & _ & Hk & Hv);
    [lia | lia |].
  exists T1'. split; [exact Hs|]. split.
  - apply (Hk 0); lia.
  - apply Hv. vm_compute. discriminate.
Defined.

Lemma self_loop (n : Z) (T : list Z) (c : nat) :
  RankedTree n T -> Z.of_nat c <= n - 1 ->
  run (2 * c + 1) n T (Outer (wrap (Z.of_nat c - 1)) T 0) = Done 0.
Proof.
  intros Ht. pose proof (rt_leaves _ _ Ht) as Hn.
  induction c as [|c IH]; intros Hc.
  - change (Z.of_nat 0 - 1) with (0 - 1). cbn [Nat.mul Nat.add run step].
    rewrite wrap_pred_zero, wrap_small by lia.
    destruct (Z.ltb_spec (2 ^ 64 - 1) (n - 1)); [lia | reflexivity].
  - replace (Z.of_nat (S c) - 1) with (Z.of_nat c) by lia.
    replace (2 * S c + 1)%nat with (S (S (2 * c + 1))) by lia.
    rewrite wrap_small by lia. cbn [run].
    assert (Hs : step n T (Outer (Z.of_nat c) T 0) =
                 Inner (Z.of_nat c) (Z.of_nat c) T 0).
    { simpl. rewrite wrap_small by lia.
      destruct (Z.ltb_spec (Z.of_nat c) (n - 1)); [|lia].
      rewrite rank_self by (auto; lia). reflexivity. }
    rewrite Hs, step_inner_exit by lia. apply IH. lia.
Qed.

(** C3: for every ranked tree [T] with [n] leaves, [rnni_distance(n, T, T)]
    returns 0. *)
Theorem self_distance (n : Z) (T : list Z) :
  RankedTree n T ->
  exists fuel, forall fuel', (fuel <= fuel')%nat ->
    t64_rnni_distance fuel' n T T = Some (Ok 0).
Proof.
  intros Ht. pose proof (rt_leaves _ _ Ht) as Hn.
  exists (2 * Z.to_nat (n - 1) + 1)%nat. intros fuel' Hf.
  unfold t64_rnni_distance. rewrite (start_ranked n T Ht).
  replace fuel' with ((2 * Z.to_nat (n - 1) + 1) + (fuel' - (2 * Z.to_nat (n - 1) + 1)))%nat
    by lia.
  rewrite run_add.
  replace (n - 1 - 1) with (Z.of_nat (Z.to_nat (n - 1)) - 1) by lia.
  rewrite self_loop by (auto; lia).
  rewrite run_final by reflexivity. reflexivity.
Qed.

Lemma self_distance_witness :
  exists fuel, t64_rnni_distance fuel 4 [3; 12; 15] [3; 12; 15] = Some (Ok 0).
Proof.
  destruct (self_distance 4 [3; 12; 15]) as (fuel & H).
  - apply ranked_treeb_sound. reflexivity.
  - exists fuel. apply H. lia.
Defined.

Lemma distance_run (n : Z) (T R : list Z) :
  RankedTree n T -> RankedTree n R ->
  exists fuel d,
    run fuel n R (start n T) = Done d /\
    0 <= 2 * d <= (n - 1) * (n - 2) /\
    outer_ranks n (visited fuel n R (start n T)) = rev (ranks n).
Proof.
  intros Ht Hr. pose proof (rt_leaves _ _ Ht) as Hn.
  pose proof (ranked_rooted n T Ht) as Hroot.
  rewrite firstn_all2 in Hroot by (pose proof (rt_length _ _ Ht); lia).
  rewrite (start_ranked n T Ht).
  destruct (outer_loop n R Hn (fun i => ranked_inside n R i Hr)
              (Z.to_nat (n - 1)) T 0) as (k & d & Hrun & Hd & Hb & Hv);
    try lia; [exact Hroot|].
  rewrite Z2Nat.id in Hrun, Hv, Hb by lia.
  exists k, d. split; [exact Hrun|]. split; [nia|]. exact Hv.
Qed.

(** C8: on ranked trees with the same number of leaves the distance
    computation terminates with a value; the outer loop enters its body once
    for each rank [n-2, ..., 0] in this order, and each pass of the inner
    loop with [r > i] lowers [r] by exactly 1, the loop being left as soon as
    [r <= i]. *)
Theorem distance_terminates (n : Z) (T R : list Z) :
  RankedTree n T -> RankedTree n R ->
  (exists fuel d,
     run fuel n R (start n T) = Done d /\
     outer_ranks n (visited fuel n R (start n T)) = rev (ranks n)) /\
  (forall i r T1 d, 0 <= i < r -> r < 2 ^ 64 ->
     exists T1', step n R (Inner i r T1 d) = Inner i (r - 1) T1' (wrap (d + 1))) /\
  (forall i r T1 d, r <= i ->
     step n R (Inner i r T1 d) = Outer (wrap (i - 1)) T1 d).
Proof.
  intros Ht Hr. split; [|split].
  - destruct (distance_run n T R Ht Hr) as (fuel & d & Hrun & _ & Hv).
    exists fuel, d. split; assumption.
  - intros i r T1 d Hi Hr64.
    destruct (step_inner_move n R i r T1 d) as (T1' & _ & Hs); [lia|].
    rewrite (wrap_small (r - 1)) in Hs by lia. eauto.
  - intros i r T1 d Hle. now apply step_inner_exit.
Qed.

Lemma distance_terminates_witness :
  exists fuel d,
    run fuel 4 [5; 7; 15] (start 4 [3; 12; 15]) = Done d /\
    outer_ranks 4 (visited fuel 4 [5; 7; 15] (start 4 [3; 12; 15])) = [2; 1; 0].
Proof.
  destruct (distance_terminates 4 [3; 12; 15] [5; 7; 15]) as (H & _ & _).
  - apply ranked_treeb_sound. reflexivity.
  - apply ranked_treeb_sound. reflexivity.
  - exact H.
Defined.

(** C9: on ranked trees with the same number [n] of leaves the value
    returned by the distance computation is at most [(n-1)(n-2)/2]. *)
Theorem distance_bound (n : Z) (T R : list Z) :
  RankedTree n T -> RankedTree n R ->
  exists d,
    0 <= d <= (n - 1) * (n - 2) / 2 /\
    (exists fuel, t64_rnni_distance fuel n T R = Some (Ok d)) /\
    (forall fuel res, t64_rnni_distance fuel n T R = Some res -> res = Ok d).
Proof.
  intros Ht Hr.
  destruct (distance_run n T R Ht Hr) as (fuel & d & Hrun & Hd & _).
  assert (Hret : t64_rnni_distance fuel n T R = Some (Ok d)).
  { unfold t64_rnni_distance. now rewrite Hrun. }
  exists d. split; [|split].
  - split; [lia|]. apply Z.div_le_lower_bound; lia.
  - exists fuel. exact Hret.
  - intros fuel' res Hres. symmetry.
    exact (t64_rnni_distance_unique _ _ _ _ _ _ _ Hret Hres).
Qed.

Lemma distance_bound_witness :
  exists d, 0 <= d <= 3 /\
    exists fuel, t64_rnni_distance fuel 4 [5; 7; 15] [3; 12; 15] = Some (Ok d).
Proof.
  destruct (distance_bound 4 [5; 7; 15] [3; 12; 15]) as (d & Hd & Hf & _).
  - apply ranked_treeb_sound. reflexivity.
  - apply ranked_treeb_sound. reflexivity.
  - exists d. split; [exact Hd | exact Hf].
Defined.

(** * The generator *)

(** ** More on masks *)

Lemma lor_contains_l (a b : Z) : Z.land (Z.lor a b) a = a.
Proof.
  apply land_contains. intros k Hk E. rewrite Z.lor_spec, E. reflexivity.
Qed.

Lemma lor_contains_r (a b : Z) : Z.land (Z.lor a b) b = b.
Proof. rewrite Z.lor_comm. apply lor_contains_l. Qed.

Lemma contains_lor (x a b : Z) :
  Z.land x a = a -> Z.land x b = b -> Z.land x (Z.lor a b) = Z.lor a b.
Proof.
  intros Ha Hb. rewrite Z.land_lor_distr_r, Ha, Hb. reflexivity.
Qed.

Lemma disjoint_lor (a b x : Z) :
  Z.land a x = 0 -> Z.land b x = 0 -> Z.land (Z.lor a b) x = 0.
Proof.
  intros Ha Hb. rewrite Z.land_lor_distr_l, Ha, Hb. reflexivity.
Qed.

Lemma pow2_disjoint (p q : Z) :
  0 <= p -> 0 <= q -> p <> q -> Z.land (2 ^ p) (2 ^ q) = 0.
Proof.
  intros Hp Hq Hne. apply land_disjoint. intros k Hk.
  rewrite !pow2_bit by lia. intros E. apply Z.eqb_eq in E.
  apply Z.eqb_neq. lia.
Qed.

Lemma pow2_inside (n k : Z) :
  0 <= k < n -> Z.land (Z.ones n) (2 ^ k) = 2 ^ k.
Proof.
  intros Hk. apply land_contains. intros m Hm.
  rewrite pow2_bit, ones_bit by lia. intros E. apply Z.eqb_eq in E.
  apply Z.ltb_lt. lia.
Qed.

(** A mask inside a leaf mask is empty or that leaf. *)
Lemma inside_pow2 (k a : Z) :
  0 <= k -> Z.land (2 ^ k) a = a -> a = 0 \/ a = 2 ^ k.
Proof.
  intros Hk Ha. rewrite land_contains in Ha.
  assert (Hother : forall m, 0 <= m -> m <> k -> Z.testbit a m = false).
  { intros m Hm Hne. destruct (Z.testbit a m) eqn:E; [|reflexivity].
    apply Ha in E; [|exact Hm]. rewrite pow2_bit in E by lia.
    apply Z.eqb_eq in E. lia. }
  destruct (Z.testbit a k) eqn:E.
  - right. apply Z.bits_inj'. intros m Hm. rewrite pow2_bit by lia.
    destruct (Z.eqb_spec k m) as [<-|Hne]; [exact E | apply Hother; lia].
  - left. apply Z.bits_inj'. intros m Hm. rewrite Z.bits_0.
    destruct (Z.eq_dec m k) as [->|Hne]; [exact E | now apply Hother].
Qed.

(** The join of two non-empty disjoint masks is not a leaf. *)
Lemma join_not_leaf (n a b : Z) :
  a <> 0 -> b <> 0 -> Z.land a b = 0 -> ~ leaf_mask n (Z.lor a b).
Proof.
  intros Ha Hb Hd (k & Hk & E).
  destruct (inside_pow2 k a) as [?|Ea]; [lia | rewrite <- E; apply lor_contains_l | contradiction |].
  destruct (inside_pow2 k b) as [?|Eb]; [lia | rewrite <- E; apply lor_contains_r | contradiction |].
  rewrite Ea, Eb, Z.land_diag in Hd.
  revert Hd. apply Z.pow_nonzero; lia.
Qed.

Lemma lor_nonzero (a b : Z) : a <> 0 -> Z.lor a b <> 0.
Proof. intros Ha E. apply Z.lor_eq_0_iff in E. tauto. Qed.

(** A mask inside [ones n] with all [n] low bits is [ones n]. *)
Lemma full_mask (n a : Z) :
  0 <= n -> Z.land (Z.ones n) a = a ->
  (forall k, 0 <= k < n -> Z.testbit a k = true) -> a = Z.ones n.
Proof.
  intros Hn Ha Hall. rewrite land_contains in Ha.
  apply Z.bits_inj'. intros k Hk. rewrite ones_bit by lia.
  destruct (Z.ltb_spec k n).
  - apply Hall. lia.
  - destruct (Z.testbit a k) eqn:E; [|reflexivity].
    apply Ha in E; [|exact Hk]. rewrite ones_bit in E by lia.
    apply Z.ltb_lt in E. lia.
Qed.

Lemma earlier_stable (n : Z) (v v' : list Z) (r r' m : Z) :
  r <= r' -> (forall q, 0 <= q < r -> load v' q = load v q) ->
  earlier n v r m -> earlier n v' r' m.
Proof.
  intros Hr Hsame [Hl|(q & Hq & ->)]; [now left | right].
  exists q. split; [lia|]. symmetry. now apply Hsame.
Qed.

(** One pass of the joining loop keeps the invariant. *)
Lemma join_step (n i j : Z) (u v : list Z) (a b : Z) :
  2 <= n <= 64 -> joined n i j u v -> i < n - 1 ->
  0 <= a < j -> 0 <= b < j - 1 ->
  let j' := j - 1 in
  let v1 := store v i (load u a) in
  let u1 := store u a (load u j') in
  let v2 := store v1 i (Z.lor (load v1 i) (load u1 b)) in
  let u2 := store u1 b (load v2 i) in
  joined n (i + 1) j' u2 v2.
Proof.
  intros Hn J Hi Ha Hb j' v1 u1 v2 u2.
  destruct J as [Ji Jj Jlu Jlv Jhandle Jnz Jin Jdisj Jcover Jch Jnl Junder Jdist Jlast].
  assert (Hmv : forall p, 0 <= p < j' ->
            0 <= moved a j' p < j /\ moved a j' p <> a).
  { intros p Hp. unfold moved. destruct (Z.eqb_spec p a); subst j'; lia. }
  assert (Hinj : forall p q, 0 <= p < j' -> 0 <= q < j' ->
            moved a j' p = moved a j' q -> p = q).
  { intros p q Hp Hq. unfold moved.
    destruct (Z.eqb_spec p a); destruct (Z.eqb_spec q a); subst j'; lia. }
  assert (Hsurj : forall p0, 0 <= p0 < j -> p0 <> a ->
            exists p, 0 <= p < j' /\ moved a j' p = p0).
  { intros p0 Hp0 Hne. destruct (Z.eq_dec p0 j') as [->|Hnj].
    - exists a. unfold moved. rewrite Z.eqb_refl. subst j'. split; [lia | reflexivity].
    - exists p0. unfold moved. destruct (Z.eqb_spec p0 a); subst j'; [lia|].
      split; [lia | reflexivity]. }
  assert (Hu1 : forall p, 0 <= p < j' -> load u1 p = load u (moved a j' p)).
  { intros p Hp. unfold u1, moved. rewrite load_store by lia.
    destruct (p =? a); reflexivity. }
  assert (Hv1 : load v1 i = load u a).
  { unfold v1. apply load_store_same. lia. }
  set (A := load u a) in *.
  set (c := moved a j' b) in *.
  set (B := load u c) in *.
  assert (Hv2i : load v2 i = Z.lor A B).
  { unfold v2. rewrite load_store_same by (unfold v1; rewrite length_store; lia).
    rewrite Hv1, Hu1 by (subst j'; lia). reflexivity. }
  set (N := Z.lor A B) in *.
  assert (Hv2 : forall q, 0 <= q -> q <> i -> load v2 q = load v q).
  { intros q Hq Hne. unfold v2, v1. rewrite !load_store_other by lia. reflexivity. }
  assert (Hu2b : load u2 b = N).
  { unfold u2. rewrite load_store_same by (unfold u1; rewrite length_store; subst j'; lia).
    exact Hv2i. }
  assert (Hu2 : forall p, 0 <= p < j' -> p <> b ->
            load u2 p = load u (moved a j' p)).
  { intros p Hp Hne. unfold u2. rewrite load_store_other by lia. now apply Hu1. }
  destruct (Hmv b) as [Hc Hca]; [subst j'; lia|]. fold c in Hc, Hca.
  assert (HAB : Z.land A B = 0) by (apply Jdisj; lia).
  assert (HAnz : A <> 0) by (apply Jnz; lia).
  assert (HBnz : B <> 0) by (apply Jnz; lia).
  assert (HNnz : N <> 0) by (apply lor_nonzero; exact HAnz).
  assert (Hother : forall p0, 0 <= p0 < j -> p0 <> a -> p0 <> c ->
            exists p, 0 <= p < j' /\ p <> b /\ moved a j' p = p0).
  { intros p0 Hp0 Hna Hnc. destruct (Hsurj p0 Hp0 Hna) as (p & Hp & E).
    exists p. repeat split; try lia. intros ->. apply Hnc. now rewrite <- E. }
  assert (Hlift : forall P : Z -> Prop, (P A -> P N) -> (P B -> P N) ->
            (exists p0, 0 <= p0 < j /\ P (load u p0)) ->
            exists p, 0 <= p < j' /\ P (load u2 p)).
  { intros P HA HB (p0 & Hp0 & HP).
    destruct (Z.eq_dec p0 a) as [->|Hna].
    { exists b. split; [subst j'; lia|]. rewrite Hu2b. now apply HA. }
    destruct (Z.eq_dec p0 c) as [->|Hnc].
    { exists b. split; [subst j'; lia|]. rewrite Hu2b. now apply HB. }
    destruct (Hother p0 Hp0 Hna Hnc) as (p & Hp & Hpb & E).
    exists p. split; [exact Hp|]. rewrite Hu2, E by assumption. exact HP. }
  assert (Hearlier : forall r m, r <= i -> earlier n v r m -> earlier n v2 r m).
  { intros r m Hr. apply earlier_stable; [lia|].
    intros q Hq. apply Hv2; lia. }
  constructor.
  - lia.
  - subst j'. lia.
  - unfold u2, u1. now rewrite !length_store.
  - unfold v2, v1. now rewrite !length_store.
  - intros p Hp. destruct (Z.eq_dec p b) as [->|Hne].
    + rewrite Hu2b, <- Hv2i. right. exists i. split; [lia | reflexivity].
    + rewrite Hu2 by assumption.
      apply earlier_stable with (v := v) (r := i); [lia | |].
      * intros q Hq. apply Hv2; lia.
      * apply Jhandle. apply Hmv. exact Hp.
  - intros p Hp. destruct (Z.eq_dec p b) as [->|Hne].
    + now rewrite Hu2b.
    + rewrite Hu2 by assumption. apply Jnz. apply Hmv. exact Hp.
  - intros p Hp. destruct (Z.eq_dec p b) as [->|Hne].
    + rewrite Hu2b. apply contains_lor; apply Jin; lia.
    + rewrite Hu2 by assumption. apply Jin. apply Hmv. exact Hp.
  - intros p q Hp Hq Hpq.
    assert (Hside : forall s, 0 <= s < j' -> s <> b ->
              Z.land N (load u (moved a j' s)) = 0).
    { intros s Hs Hsb. destruct (Hmv s Hs) as [Hms Hmsa].
      apply disjoint_lor; apply Jdisj; try lia.
      unfold c. intros E. apply Hsb. symmetry.
      apply Hinj; [subst j'; lia | exact Hs | exact E]. }
    destruct (Z.eq_dec p b) as [->|Hpb]; destruct (Z.eq_dec q b) as [->|Hqb].
    + contradiction.
    + rewrite Hu2b, Hu2 by assumption. now apply Hside.
    + rewrite Hu2b, Hu2 by assumption. rewrite Z.land_comm. now apply Hside.
    + rewrite !Hu2 by assumption.
      destruct (Hmv p Hp), (Hmv q Hq). apply Jdisj; try lia.
      intros E. apply Hpq. now apply Hinj.
  - intros k Hk.
    apply (Hlift (fun m => Z.testbit m k = true)).
    + intros E. unfold N. rewrite Z.lor_spec, E. reflexivity.
    + intros E. unfold N. rewrite Z.lor_spec, E. apply orb_true_r.
    + now apply Jcover.
  - intros r Hr. destruct (Z.eq_dec r i) as [->|Hne].
    + exists A, B. rewrite Hv2i. repeat split; auto.
      * apply Hearlier; [lia|]. apply Jhandle. lia.
      * apply Hearlier; [lia|]. apply Jhandle. lia.
    + destruct (Jch r) as (x & y & Hx & Hy & Hd & Hl); [lia|].
      exists x, y. rewrite Hv2 by lia. repeat split; auto.
      * apply Hearlier; [lia | exact Hx].
      * apply Hearlier; [lia | exact Hy].
  - intros r Hr. destruct (Z.eq_dec r i) as [->|Hne].
    + rewrite Hv2i. now apply join_not_leaf.
    + rewrite Hv2 by lia. apply Jnl. lia.
  - intros r Hr. destruct (Z.eq_dec r i) as [->|Hne].
    + exists b. split; [subst j'; lia|]. rewrite Hu2b, Hv2i. apply contains_refl.
    + rewrite Hv2 by lia.
      apply (Hlift (fun m => Z.land m (load v r) = load v r)).
      * intros E. apply contains_trans with (b := A); [apply lor_contains_l | exact E].
      * intros E. apply contains_trans with (b := B); [apply lor_contains_r | exact E].
      * apply Junder. lia.
  - assert (Hnew : forall s, 0 <= s < i -> load v s <> N).
    { intros s Hs E. destruct (Junder s Hs) as (p0 & Hp0 & Hin).
      rewrite E in Hin.
      destruct (Z.eq_dec p0 a) as [->|Hna].
      { apply HBnz. apply (inside_disjoint_zero A B); [exact HAB | | apply contains_refl].
        apply contains_trans with (b := N); [exact Hin | apply lor_contains_r]. }
      destruct (Z.eq_dec p0 c) as [->|Hnc].
      { apply HAnz. apply (inside_disjoint_zero A B); [exact HAB | apply contains_refl |].
        apply contains_trans with (b := N); [exact Hin | apply lor_contains_l]. }
      apply HNnz. rewrite <- Hin. rewrite Z.land_comm.
      apply disjoint_lor; apply Jdisj; lia. }
    intros r s Hr Hs. 
    destruct (Z.eq_dec r i) as [->|Hri]; destruct (Z.eq_dec s i) as [->|Hsi];
      rewrite ?Hv2i, ?(Hv2 r), ?(Hv2 s) by lia; intros E.
    + reflexivity.
    + exfalso. apply (Hnew s); [lia | now symmetry].
    + exfalso. apply (Hnew r); [lia | exact E].
    + apply Jdist; [lia | lia | exact E].
  - intros _. exists b. split; [subst j'; lia|].
    rewrite Hu2b. replace (i + 1 - 1) with i by lia. now symmetry.
Qed.

Lemma init_leaves_spec (todo : nat) :
  forall u i,
    0 <= i -> i + Z.of_nat todo <= Z.of_nat (length u) ->
    i + Z.of_nat todo <= 64 ->
    length (init_leaves u i todo) = length u /\
    (forall k, i <= k < i + Z.of_nat todo -> load (init_leaves u i todo) k = 2 ^ k) /\
    (forall k, 0 <= k < i -> load (init_leaves u i todo) k = load u k).
Proof.
  induction todo as [|todo IH]; intros u i Hi Hlen H64; simpl.
  - split; [reflexivity|]. split; [intros; lia | reflexivity].
  - destruct (IH (store u i (wrap (Z.shiftl 1 i))) (i + 1)) as (Hl & Hnew & Hold);
      rewrite ?length_store; try lia.
    rewrite length_store in Hl.
    split; [exact Hl|]. split.
    + intros k Hk. destruct (Z.eq_dec k i) as [->|Hne].
      * rewrite Hold by lia. rewrite load_store_same by lia.
        rewrite Z.shiftl_1_l. apply wrap_small.
        split; [apply Z.pow_nonneg; lia | apply Z.pow_lt_mono_r; lia].
      * apply Hnew. lia.
    + intros k Hk. rewrite Hold by lia. apply load_store_other; lia.
Qed.

Lemma joined_init (n : Z) (v : list Z) :
  2 <= n <= 64 -> Z.of_nat (length v) = n - 1 ->
  joined n 0 n (init_leaves (repeat 0 (Z.to_nat n)) 0 (Z.to_nat n)) v.
Proof.
  intros Hn Hv.
  destruct (init_leaves_spec (Z.to_nat n) (repeat 0 (Z.to_nat n)) 0) as (Hl & Hleaf & _);
    rewrite ?repeat_length; try lia.
  rewrite repeat_length in Hl.
  assert (Hu : forall p, 0 <= p < n ->
            load (init_leaves (repeat 0 (Z.to_nat n)) 0 (Z.to_nat n)) p = 2 ^ p).
  { intros p Hp. apply Hleaf. lia. }
  constructor; try lia.
  - intros p Hp. rewrite Hu by lia. left. exists p. split; [lia | reflexivity].
  - intros p Hp. rewrite Hu by lia. apply Z.pow_nonzero; lia.
  - intros p Hp. rewrite Hu by lia. apply pow2_inside. lia.
  - intros p q Hp Hq Hne. rewrite !Hu by lia. apply pow2_disjoint; lia.
  - intros k Hk. exists k. split; [lia|]. rewrite Hu by lia.
    rewrite pow2_bit by lia. apply Z.eqb_refl.
Qed.

Lemma joined_ranked (n : Z) (u v : list Z) :
  2 <= n <= 64 -> joined n (n - 1) 1 u v -> RankedTree n v.
Proof.
  intros Hn J.
  destruct J as [Ji Jj Jlu Jlv Jhandle Jnz Jin Jdisj Jcover Jch Jnl Junder Jdist Jlast].
  constructor.
  - exact Hn.
  - exact Jlv.
  - destruct Jlast as (p & Hp & E); [lia|].
    assert (p = 0) by lia. subst p.
    replace (n - 1 - 1) with (n - 2) in E by lia. rewrite <- E.
    apply full_mask; [lia | apply Jin; lia |].
    intros k Hk. destruct (Jcover k Hk) as (p & Hp' & Hbit).
    assert (p = 0) by lia. now subst p.
  - intros r Hr. apply Jch. lia.
  - intros r Hr. apply Jnl. lia.
  - intros r s Hr Hs. apply Jdist; lia.
Qed.

Section GeneratorCorrect.

Variable rng : Type.
Variable pcg32_boundedrand_r : rng -> Z -> Z * rng.
Hypothesis pcg32_boundedrand_r_range :
  forall s bound, 0 < bound -> 0 <= fst (pcg32_boundedrand_r s bound) < bound.

Lemma join_loop_joined (n : Z) (todo : nat) :
  2 <= n <= 64 ->
  forall i j s u v,
    joined n i j u v -> i + Z.of_nat todo = n - 1 ->
    exists u',
      joined n (n - 1) 1 u'
        (snd (join_loop rng pcg32_boundedrand_r todo i j s u v)).
Proof.
  intros Hn. induction todo as [|todo IH]; intros i j s u v J Hi.
  - exists u. simpl. pose proof (jn_j _ _ _ _ _ J).
    replace (n - 1) with i by lia. replace 1 with j by lia. exact J.
  - pose proof (jn_j _ _ _ _ _ J) as Hj. pose proof (jn_i _ _ _ _ _ J) as Hi0.
    cbn [join_loop].
    pose proof (pcg32_boundedrand_r_range s j ltac:(lia)) as Ha.
    destruct (pcg32_boundedrand_r s j) as [a s1]. simpl in Ha.
    rewrite (wrap_small (j - 1)) by lia.
    pose proof (pcg32_boundedrand_r_range s1 (j - 1) ltac:(lia)) as Hb.
    destruct (pcg32_boundedrand_r s1 (j - 1)) as [b s2]. simpl in Hb.
    apply IH; [|lia].
    apply join_step; auto; lia.
Qed.

(** C2: for every [n] with [2 <= n <= 64] and every state of the random
    source, [t64_random(rng, n, v)] fills [v[0..n-2]] with a ranked tree:
    the entry at rank [n-2] has all [n] low bits set, each entry is the
    disjoint union of two leaf masks or earlier entries, no entry is a
    leaf mask, and no two ranks carry the same mask. *)
Theorem t64_random_ranked (s : rng) (n : Z) (v : list Z) :
  2 <= n <= 64 -> Z.of_nat (length v) = n - 1 ->
  exists s' v',
    t64_random rng pcg32_boundedrand_r s n v = Ok (s', v') /\
    RankedTree n v'.
Proof.
  intros Hn Hv. unfold t64_random.
  destruct (Z.ltb_spec 1 n); [|lia]. destruct (Z.leb_spec n 64); [|lia].
  cbn [andb]. rewrite (wrap_small (n - 1)) by lia.
  destruct (join_loop_joined n (Z.to_nat (n - 1)) Hn 0 n s
              (init_leaves (repeat 0 (Z.to_nat n)) 0 (Z.to_nat n)) v)
    as (u' & J); [now apply joined_init | lia |].
  destruct (join_loop rng pcg32_boundedrand_r (Z.to_nat (n - 1)) 0 n s
              (init_leaves (repeat 0 (Z.to_nat n)) 0 (Z.to_nat n)) v)
    as [s' v'] eqn:E.
  exists s', v'. split; [reflexivity|].
  simpl in J. now apply joined_ranked with (u := u').
Qed.

End GeneratorCorrect.

Lemma lcg_draw_range (s bound : Z) :
  0 < bound -> 0 <= fst (lcg_draw s bound) < bound.
Proof. intros H. simpl. apply Z.mod_pos_bound. exact H. Qed.

Lemma t64_random_ranked_witness :
  exists s' v',
    t64_random Z lcg_draw 42 5 [0; 0; 0; 0] = Ok (s', v') /\ RankedTree 5 v'.
Proof.
  apply (t64_random_ranked Z lcg_draw lcg_draw_range 42 5 [0; 0; 0; 0]).
  - lia.
  - reflexivity.
Defined.

(** * Where the code departs from its description *)

(** C1: on the ranked trees [T = (0011, 0111, 1111)] and
    [R = (0011, 1011, 1111)] the distance loop reaches [i = 1], [r = 2] with
    [v = 1111] and [u = 0111]: the nested case, [u] with three leaves.  The
    scan for a child of [u] returns [u] itself, read at rank [r-1]; it is
    not a strict subset of [u], and the other child [y = u - x] is empty.
    The same happens in every state: whenever [u = T1[r-1]] does not have
    exactly two leaves, the child selected is [u]. *)
Theorem child_scan_returns_u :
  ranked_treeb 4 [3; 7; 15] = true /\
  ranked_treeb 4 [3; 11; 15] = true /\
  run 3 4 [3; 11; 15] (start 4 [3; 7; 15]) = Inner 1 2 [3; 7; 15] 0 /\
  load [3; 7; 15] 2 = 15 /\ load [3; 7; 15] (2 - 1) = 7 /\
  Z.land 15 7 <> 0 /\ popcount64 7 = 3 /\
  find_child [3; 7; 15] 7 2 = Ok 7 /\
  sub64 7 7 = 0 /\
  (forall T1 r, popcount64 (load T1 (wrap (r - 1))) <> 2 ->
     find_child T1 (load T1 (wrap (r - 1))) r = Ok (load T1 (wrap (r - 1)))).
Proof.
  repeat split; try reflexivity.
  - vm_compute. discriminate.
  - intros T1 r Hp. now apply find_child_scan.
Qed.

(** C5: the value computed is not symmetric: on the ranked trees
    [T = (0011, 1100, 1111)] and [R = (0101, 0111, 1111)] the code returns 2
    from [T] to [R] and 3 from [R] to [T]. *)
Theorem distance_not_symmetric :
  ranked_treeb 4 [3; 12; 15] = true /\
  ranked_treeb 4 [5; 7; 15] = true /\
  t64_rnni_distance 12 4 [3; 12; 15] [5; 7; 15] = Some (Ok 2) /\
  t64_rnni_distance 12 4 [5; 7; 15] [3; 12; 15] = Some (Ok 3).
Proof.
  repeat split; reflexivity.
Qed.

(** * The printed form of a tree *)

Lemma printed_bit (x j : Z) :
  0 <= j -> Z.land (Z.shiftr x j) 1 mod 256 = Z.b2z (Z.testbit x j).
Proof.
  intros Hj. change 1 with (Z.ones 1) at 1.
  rewrite Z.land_ones, Z.shiftr_div_pow2, Z.testbit_spec' by lia.
  change (2 ^ 1) with 2.
  apply Z.mod_small.
  pose proof (Z.mod_pos_bound (x / 2 ^ j) 2 ltac:(lia)). lia.
Qed.

Lemma length_print_bits (x : Z) (todo : nat) :
  forall j, length (print_bits x j todo) = todo.
Proof.
  induction todo as [|todo IH]; intros j; simpl; [reflexivity|].
  now rewrite IH.
Qed.

Lemma nth_print_bits (x : Z) (d : ascii) (todo : nat) :
  forall j k, 0 <= j -> (k < todo)%nat ->
    nth k (print_bits x j todo) d =
    digit (Z.b2z (Z.testbit x (j + Z.of_nat k))).
Proof.
  induction todo as [|todo IH]; intros j k Hj Hk; [lia|].
  cbn [print_bits]. destruct k as [|k].
  - cbn [nth]. rewrite printed_bit by lia. do 3 f_equal. lia.
  - cbn [nth]. rewrite IH by lia. do 3 f_equal. lia.
Qed.

Lemma length_print_rows (n : Z) (v : list Z) (todo : nat) :
  forall i, length (print_rows n v i todo) = (todo * (Z.to_nat n + 1))%nat.
Proof.
  induction todo as [|todo IH]; intros i; simpl; [reflexivity|].
  rewrite length_app, length_print_bits. simpl. rewrite IH. lia.
Qed.

Lemma skipn_past {A : Type} (l1 l2 : list A) (k : nat) :
  skipn (length l1 + k) (l1 ++ l2) = skipn k l2.
Proof. induction l1 as [|a l1 IH]; simpl; [reflexivity | exact IH]. Qed.

(** Dropping [m] rows leaves the rows of the ranks below. *)
Lemma skipn_print_rows (n : Z) (v : list Z) (m : nat) :
  forall i todo, (m <= todo)%nat ->
    skipn (m * (Z.to_nat n + 1)) (print_rows n v i todo) =
    print_rows n v (i - Z.of_nat m) (todo - m).
Proof.
  induction m as [|m IH]; intros i todo Hm.
  - replace (i - Z.of_nat 0) with i by lia.
    rewrite Nat.sub_0_r. reflexivity.
  - destruct todo as [|todo]; [lia|].
    cbn [print_rows].
    replace (S m * (Z.to_nat n + 1))%nat
      with (length (print_bits (load v i) 0 (Z.to_nat n)) +
            (1 + m * (Z.to_nat n + 1)))%nat
      by (rewrite length_print_bits; lia).
    rewrite skipn_past. cbn [Nat.add skipn].
    rewrite IH by lia. f_equal. lia.
Qed.

(** The row of rank [i] starts [n-2-i] rows into the text. *)
Lemma printed_row (n : Z) (v : list Z) (i : Z) :
  2 <= n <= 64 -> 0 <= i <= n - 2 ->
  exists rest,
    skipn (Z.to_nat ((n - 2 - i) * (n + 1)))
          (print_rows n v (wrap (n - 2)) (Z.to_nat (wrap (n - 2) + 1))) =
    print_bits (load v i) 0 (Z.to_nat n) ++ newline :: rest.
Proof.
  intros Hn Hi. rewrite wrap_small by lia.
  replace (Z.to_nat ((n - 2 - i) * (n + 1)))
    with (Z.to_nat (n - 2 - i) * (Z.to_nat n + 1))%nat by nia.
  rewrite skipn_print_rows by lia.
  replace (n - 2 - Z.of_nat (Z.to_nat (n - 2 - i))) with i by lia.
  destruct (Z.to_nat (n - 2 + 1) - Z.to_nat (n - 2 - i))%nat as [|todo] eqn:E;
    [lia|].
  cbn [print_rows]. eauto.
Qed.

Lemma digit_bit (b : bool) : Ascii.eqb (digit (Z.b2z b)) (digit 1) = b.
Proof. destruct b; reflexivity. Qed.

Lemma read_print_bits (x : Z) (todo : nat) :
  forall j k, 0 <= j -> 0 <= k ->
    Z.testbit (read_bits (print_bits x j todo) j) k =
    Z.testbit x k && (j <=? k) && (k <? j + Z.of_nat todo).
Proof.
  induction todo as [|todo IH]; intros j k Hj Hk.
  - simpl. rewrite Z.bits_0.
    destruct (Z.leb_spec j k); destruct (Z.ltb_spec k (j + Z.of_nat 0));
      try lia; destruct (Z.testbit x k); reflexivity.
  - cbn [print_bits read_bits]. rewrite printed_bit, digit_bit by lia.
    rewrite Z.lor_spec, IH by lia.
    destruct (Z.eq_dec k j) as [->|Hne].
    + destruct (Z.testbit x j).
      * rewrite pow2_bit, Z.eqb_refl by lia. simpl.
        destruct (Z.leb_spec j j); destruct (Z.ltb_spec j (j + Z.of_nat (S todo)));
          try lia; reflexivity.
      * rewrite Z.bits_0. simpl. reflexivity.
    + assert (E : Z.testbit (if Z.testbit x j then 2 ^ j else 0) k = false).
      { destruct (Z.testbit x j); [|apply Z.bits_0].
        rewrite pow2_bit by lia. apply Z.eqb_neq. lia. }
      rewrite E. simpl.
      destruct (Z.leb_spec (j + 1) k); destruct (Z.leb_spec j k);
        destruct (Z.ltb_spec k (j + 1 + Z.of_nat todo));
        destruct (Z.ltb_spec k (j + Z.of_nat (S todo))); try lia; reflexivity.
Qed.

Lemma read_printed (x n : Z) :
  0 <= n ->
  read_bits (print_bits x 0 (Z.to_nat n)) 0 = Z.land x (Z.ones n).
Proof.
  intros Hn. apply Z.bits_inj'. intros k Hk.
  rewrite read_print_bits, Z.land_spec, ones_bit by lia.
  destruct (Z.leb_spec 0 k); [|lia]. rewrite andb_true_r.
  f_equal. destruct (Z.ltb_spec k (0 + Z.of_nat (Z.to_nat n)));
    destruct (Z.ltb_spec k n); try lia; reflexivity.
Qed.

(** X1: for [2 <= n <= 64], [t64_print] writes [n-1] lines of [n] digits,
    each ended by a newline, [(n-1)(n+1)] characters in all; the line of
    rank [i] is line [n-2-i] (the root first), and its character at column
    [j] is ['1'] when leaf [j] is in the mask at rank [i], ['0'] when not. *)
Theorem t64_print_layout (n : Z) (v : list Z) :
  2 <= n <= 64 ->
  exists out,
    t64_print n v = Ok out /\
    Z.of_nat (length out) = (n - 1) * (n + 1) /\
    (forall i j, 0 <= i <= n - 2 -> 0 <= j < n ->
       nth (Z.to_nat ((n - 2 - i) * (n + 1) + j)) out newline =
       digit (Z.b2z (Z.testbit (load v i) j))) /\
    (forall i, 0 <= i <= n - 2 ->
       nth (Z.to_nat ((n - 2 - i) * (n + 1) + n)) out (digit 0) = newline).
Proof.
  intros Hn. unfold t64_print.
  destruct (Z.ltb_spec 1 n); [|lia]. destruct (Z.leb_spec n 64); [|lia].
  cbn [andb]. eexists. split; [reflexivity|]. split.
  - rewrite length_print_rows, wrap_small by lia. nia.
  - assert (Hnth : forall i k d, 0 <= i <= n - 2 -> 0 <= k ->
              nth (Z.to_nat ((n - 2 - i) * (n + 1) + k))
                  (print_rows n v (wrap (n - 2)) (Z.to_nat (wrap (n - 2) + 1))) d =
              nth (Z.to_nat k)
                  (print_bits (load v i) 0 (Z.to_nat n) ++ [newline]) d
              \/ n < k).
    { intros i k d Hi Hk. destruct (Z_le_gt_dec k n) as [Hle|Hgt]; [left | right; lia].
      destruct (printed_row n v i Hn Hi) as (rest & Hrow).
      rewrite <- (firstn_skipn (Z.to_nat ((n - 2 - i) * (n + 1))) (print_rows _ _ _ _)) at 1.
      rewrite Hrow.
      assert (Hlen : length (firstn (Z.to_nat ((n - 2 - i) * (n + 1)))
                (print_rows n v (wrap (n - 2)) (Z.to_nat (wrap (n - 2) + 1))))
              = Z.to_nat ((n - 2 - i) * (n + 1))).
      { apply firstn_length_le. rewrite length_print_rows, wrap_small by lia. nia. }
      rewrite app_nth2 by (rewrite Hlen; nia).
      rewrite Hlen.
      replace (Z.to_nat ((n - 2 - i) * (n + 1) + k) - Z.to_nat ((n - 2 - i) * (n + 1)))%nat
        with (Z.to_nat k) by nia.
      change (print_bits (load v i) 0 (Z.to_nat n) ++ newline :: rest)
        with (print_bits (load v i) 0 (Z.to_nat n) ++ [newline] ++ rest).
      rewrite app_assoc.
      apply app_nth1. rewrite length_app, length_print_bits. simpl. lia. }
    split.
    + intros i j Hi Hj. destruct (Hnth i j newline Hi ltac:(lia)) as [->|]; [|lia].
      rewrite app_nth1 by (rewrite length_print_bits; lia).
      rewrite nth_print_bits by lia. do 3 f_equal. lia.
    + intros i Hi. destruct (Hnth i n (digit 0) Hi ltac:(lia)) as [->|]; [|lia].
      rewrite app_nth2 by (rewrite length_print_bits; lia).
      rewrite length_print_bits, Nat.sub_diag. reflexivity.
Qed.

Lemma t64_print_layout_witness :
  exists out, t64_print 4 [3; 12; 15] = Ok out /\ Z.of_nat (length out) = 15.
Proof.
  destruct (t64_print_layout 4 [3; 12; 15]) as (out & Hout & Hlen & _); [lia|].
  exists out. split; [exact Hout | exact Hlen].
Defined.

(** X2: the text written by [t64_print] determines the tree: reading back
    the [n] digits of the line of rank [i] gives the low [n] bits of the
    mask at rank [i], which for a ranked tree is the mask itself. *)
Theorem t64_print_read_back (n : Z) (v : list Z) :
  2 <= n <= 64 ->
  exists out,
    t64_print n v = Ok out /\
    (forall i, 0 <= i <= n - 2 ->
       read_bits (firstn (Z.to_nat n)
                    (skipn (Z.to_nat ((n - 2 - i) * (n + 1))) out)) 0 =
       Z.land (load v i) (Z.ones n)) /\
    (RankedTree n v ->
     forall i, 0 <= i <= n - 2 ->
       read_bits (firstn (Z.to_nat n)
                    (skipn (Z.to_nat ((n - 2 - i) * (n + 1))) out)) 0 =
       load v i).
Proof.
  intros Hn. unfold t64_print.
  destruct (Z.ltb_spec 1 n); [|lia]. destruct (Z.leb_spec n 64); [|lia].
  cbn [andb]. eexists. split; [reflexivity|].
  assert (Hread : forall i, 0 <= i <= n - 2 ->
            read_bits (firstn (Z.to_nat n)
              (skipn (Z.to_nat ((n - 2 - i) * (n + 1)))
                 (print_rows n v (wrap (n - 2)) (Z.to_nat (wrap (n - 2) + 1))))) 0 =
            Z.land (load v i) (Z.ones n)).
  { intros i Hi. destruct (printed_row n v i Hn Hi) as (rest & ->).
    rewrite firstn_app, length_print_bits, Nat.sub_diag. cbn [firstn].
    rewrite app_nil_r, firstn_all2 by (rewrite length_print_bits; lia).
    apply read_printed. lia. }
  split; [exact Hread|].
  intros Ht i Hi. rewrite Hread by exact Hi.
  rewrite Z.land_comm. now apply ranked_inside.
Qed.

Lemma t64_print_read_back_witness :
  exists out,
    t64_print 4 [3; 12; 15] = Ok out /\
    read_bits (firstn 4 (skipn 5 out)) 0 = 12.
Proof.
  destruct (t64_print_read_back 4 [3; 12; 15]) as (out & Hout & Hread & _); [lia|].
  exists out. split; [exact Hout|]. exact (Hread 1 ltac:(lia)).
Defined.

(** * More on the distance loops *)

Lemma load_firstn (a : list Z) (k : nat) (i : Z) :
  0 <= i < Z.of_nat k -> load (firstn k a) i = load a i.
Proof.
  intros H. unfold load. rewrite !nth_lookup.
  rewrite lookup_take_lt by lia. reflexivity.
Qed.

Section LoopSteps.

Variables (n : Z) (R : list Z).
Hypothesis Hn : 2 <= n <= 64.
Hypothesis HR : forall i, 0 <= i <= n - 2 ->
  Z.land (Z.ones n) (load R i) = load R i.

(** One pass of the outer loop, with its number of transitions: [m] moves
    when the probe finds rank [r = i + m], none when [r <= i]. *)
Lemma outer_pass_steps (i : Z) (T1 : list Z) (d : Z) :
  0 <= i <= n - 2 -> rooted n T1 0 -> 0 <= d -> d + 64 < 2 ^ 64 ->
  exists r m T1',
    rank n T1 (load R i) = Ok r /\ m = Z.max 0 (r - i) /\
    run (Z.to_nat m + 2) n R (Outer i T1 d) =
      Outer (wrap (i - 1)) T1' (d + m) /\
    0 <= m <= n - 2 - i /\ rooted n T1' 0 /\ (r <= i -> T1' = T1).
Proof.
  intros Hi Hroot Hd Hd64.
  assert (Hlt : (i <? wrap (n - 1)) = true).
  { rewrite wrap_small by lia. apply Z.ltb_lt. lia. }
  destruct Hroot as [Hl (p & Hp & E)].
  destruct (rank_total n T1 (load R i) p) as (r & Hrank & Hr); [lia | lia | |].
  { rewrite E. apply HR. lia. }
  assert (Hstep : step n R (Outer i T1 d) = Inner i r T1 d).
  { simpl. now rewrite Hlt, Hrank. }
  exists r, (Z.max 0 (r - i)).
  destruct (Z_le_gt_dec r i) as [Hle|Hgt].
  - exists T1. rewrite Z.max_l by lia.
    change (Z.to_nat 0 + 2)%nat with 2%nat. cbn [run].
    rewrite Hstep, step_inner_exit by lia.
    split; [exact Hrank|]. split; [reflexivity|].
    split; [f_equal; lia|]. split; [lia|].
    split; [|reflexivity].
    split; [exact Hl | exists p; split; [lia | exact E]].
  - destruct (inner_loop n R Hn (Z.to_nat (r - i)) i r T1 d) as (T1' & Hrun & Hroot' & _);
      try lia.
    { split; [exact Hl | exists p; split; [lia | exact E]]. }
    exists T1'. rewrite Z.max_r by lia.
    replace (Z.to_nat (r - i) + 2)%nat with (S (S (Z.to_nat (r - i)))) by lia.
    change (run (S (S (Z.to_nat (r - i)))) n R (Outer i T1 d))
      with (run (S (Z.to_nat (r - i))) n R (step n R (Outer i T1 d))).
    rewrite Hstep, Hrun.
    split; [exact Hrank|]. split; [reflexivity|].
    split; [f_equal; lia|]. split; [lia|].
    split; [eapply rooted_weaken; [|exact Hroot']; lia | intros; lia].
Qed.

(** All passes from rank [c-1] down: the run takes [2c + 1] transitions
    and one more for each move; if it makes no move, every probe found a
    rank not above its own. *)
Lemma outer_loop_steps (c : nat) :
  forall T1 d,
    Z.of_nat c <= n - 1 -> rooted n T1 0 ->
    0 <= d -> d + Z.of_nat c * 64 + 64 < 2 ^ 64 ->
    exists d',
      run (Z.to_nat (d' - d) + 2 * c + 1) n R
          (Outer (wrap (Z.of_nat c - 1)) T1 d) = Done d' /\
      d <= d' /\
      2 * (d' - d) <= Z.of_nat c * (2 * (n - 2) - (Z.of_nat c - 1)) /\
      (d' = d -> forall i, 0 <= i < Z.of_nat c ->
         exists r, rank n T1 (load R i) = Ok r /\ r <= i).
Proof.
  induction c as [|c IH]; intros T1 d Hc Hroot Hd Hd64.
  - exists d.
    assert (Hlt : (wrap (0 - 1) <? wrap (n - 1)) = false).
    { rewrite wrap_pred_zero, wrap_small by lia. apply Z.ltb_ge. lia. }
    change (Z.of_nat 0 - 1) with (0 - 1).
    replace (Z.to_nat (d - d) + 2 * 0 + 1)%nat with 1%nat by lia.
    cbn [run step]. rewrite Hlt.
    split; [reflexivity|]. split; [lia|]. split; [lia|].
    intros _ i Hi. lia.
  - replace (Z.of_nat (S c) - 1) with (Z.of_nat c) by lia.
    rewrite wrap_small by lia.
    destruct (outer_pass_steps (Z.of_nat c) T1 d)
      as (r & m & T1' & Hrank & Hm & Hrun1 & Hmr & Hroot' & Hsame);
      try lia; [exact Hroot|].
    destruct (IH T1' (d + m)) as (d' & Hrun2 & Hd' & Hbound & Hzero);
      try lia; [exact Hroot'|].
    exists d'.
    replace (Z.to_nat (d' - d) + 2 * S c + 1)%nat
      with ((Z.to_nat m + 2) + (Z.to_nat (d' - (d + m)) + 2 * c + 1))%nat by lia.
    rewrite run_add, Hrun1, Hrun2.
    split; [reflexivity|]. split; [lia|]. split; [lia|].
    intros E i Hi.
    assert (m = 0) by lia. assert (Hri : r <= Z.of_nat c) by lia.
    destruct (Z.eq_dec i (Z.of_nat c)) as [->|Hne].
    + exists r. split; [exact Hrank | exact Hri].
    + rewrite <- (Hsame Hri). apply Hzero; lia.
Qed.

End LoopSteps.

(** A run on a tree [T] that stores the full mask at rank [n-2], towards
    masks [R] within the [n] low bits, has ended after [enough n]
    transitions. *)
Lemma distance_steps (n : Z) (T R : list Z) :
  2 <= n <= 64 -> n - 1 <= Z.of_nat (length T) ->
  load T (n - 2) = Z.ones n ->
  (forall i, 0 <= i <= n - 2 -> Z.land (Z.ones n) (load R i) = load R i) ->
  exists d,
    0 <= d <= (n - 1) * (n - 2) / 2 /\
    (forall fuel, (enough n <= fuel)%nat ->
       run fuel n R (start n T) = Done d) /\
    (d = 0 -> forall i, 0 <= i <= n - 2 ->
       exists r, rank n (firstn (Z.to_nat (n - 1)) T) (load R i) = Ok r /\ r <= i).
Proof.
  intros Hn Hlen Hroot HR.
  assert (Hrooted : rooted n (firstn (Z.to_nat (n - 1)) T) 0).
  { split; [rewrite firstn_length_le; lia|].
    exists (n - 2). split; [lia|]. rewrite load_firstn by lia. exact Hroot. }
  destruct (outer_loop_steps n R Hn HR (Z.to_nat (n - 1))
              (firstn (Z.to_nat (n - 1)) T) 0)
    as (d & Hrun & Hd & Hb & Hzero); try lia; [exact Hrooted|].
  rewrite Z2Nat.id in Hrun, Hb, Hzero by lia.
  assert (Hstart : start n T = Outer (wrap (n - 1 - 1)) (firstn (Z.to_nat (n - 1)) T) 0).
  { unfold start. destruct (Z.ltb_spec 1 n); [|lia].
    destruct (Z.leb_spec n 64); [|lia]. simpl. do 2 f_equal. lia. }
  assert (Hbound : d <= (n - 1) * (n - 2) / 2).
  { apply Z.div_le_lower_bound; nia. }
  exists d. split; [lia|]. split.
  - intros fuel Hf. rewrite Hstart.
    replace fuel with
      ((Z.to_nat (d - 0) + 2 * Z.to_nat (n - 1) + 1) +
       (fuel - (Z.to_nat (d - 0) + 2 * Z.to_nat (n - 1) + 1)))%nat
      by (unfold enough in Hf; lia).
    rewrite run_add, Hrun. now apply run_final.
  - intros E i Hi. apply Hzero; lia.
Qed.

(** X3: a distance computation needs less than the invariants of a ranked
    tree to end normally: if [T] has [n-1] entries or more, stores the mask
    with all [n] low bits at rank [n-2], and every entry of [R] lies within
    the [n] low bits, it returns a value of at most [(n-1)(n-2)/2] and no
    fatal branch is taken, within [enough n] transitions. *)
Theorem distance_returns (n : Z) (T R : list Z) :
  2 <= n <= 64 -> n - 1 <= Z.of_nat (length T) ->
  load T (n - 2) = Z.ones n ->
  (forall i, 0 <= i <= n - 2 -> Z.land (Z.ones n) (load R i) = load R i) ->
  exists d,
    0 <= d <= (n - 1) * (n - 2) / 2 /\
    forall fuel, (enough n <= fuel)%nat ->
      t64_rnni_distance fuel n T R = Some (Ok d).
Proof.
  intros Hn Hlen Hroot HR.
  destruct (distance_steps n T R Hn Hlen Hroot HR) as (d & Hd & Hrun & _).
  exists d. split; [exact Hd|].
  intros fuel Hf. unfold t64_rnni_distance. now rewrite Hrun.
Qed.

Lemma distance_returns_witness :
  exists d, 0 <= d <= 3 /\
    t64_rnni_distance (enough 4) 4 [9; 9; 15; 0] [1; 2; 4] = Some (Ok d).
Proof.
  destruct (distance_returns 4 [9; 9; 15; 0] [1; 2; 4]) as (d & Hd & Hf).
  - lia.
  - simpl. lia.
  - reflexivity.
  - intros i Hi. assert (Hc : i = 0 \/ i = 1 \/ i = 2) by lia.
    destruct Hc as [->|[->| ->]]; reflexivity.
  - exists d. split; [exact Hd|]. apply Hf. lia.
Defined.

Lemma rank_loop_fatal (v : list Z) (x : Z) (todo : nat) :
  forall i e, rank_loop v x i todo = Fatal e -> e = No_ancestor_in_v.
Proof.
  induction todo as [|todo IH]; intros i e; simpl.
  - intros H. now injection H.
  - destruct (Z.land (load v i) x =? x); [discriminate | apply IH].
Qed.

Lemma step_not_scan_abort (n : Z) (R : list Z) (s : state) :
  s <> Abort No_ancestor_in_u -> step n R s <> Abort No_ancestor_in_u.
Proof.
  intros Hs. destruct s as [i T1 d|i r T1 d|d|e]; simpl.
  - destruct (i <? wrap (n - 1)); [|discriminate].
    destruct (rank n T1 (load R i)) as [r|e] eqn:E; [discriminate|].
    unfold rank in E. apply rank_loop_fatal in E. subst e. discriminate.
  - destruct (r >? i); [|discriminate].
    destruct (move_total (load R i) T1 r) as (T1' & -> & _). discriminate.
  - discriminate.
  - exact Hs.
Qed.

(** X4: the fatal exit ["x has no ancestor in u"] is never taken: whatever
    [n], [T] and [R], and however long the computation runs, it does not
    end there. *)
Theorem scan_abort_unreachable (fuel : nat) (n : Z) (T R : list Z) :
  run fuel n R (start n T) <> Abort No_ancestor_in_u /\
  t64_rnni_distance fuel n T R <> Some (Fatal No_ancestor_in_u).
Proof.
  assert (H : forall k s, s <> Abort No_ancestor_in_u ->
            run k n R s <> Abort No_ancestor_in_u).
  { induction k as [|k IH]; intros s Hs; simpl; [exact Hs|].
    apply IH. now apply step_not_scan_abort. }
  assert (Hstart : start n T <> Abort No_ancestor_in_u).
  { unfold start. destruct ((1 <? n) && (n <=? 64)); discriminate. }
  split; [apply H, Hstart|].
  unfold t64_rnni_distance. specialize (H fuel _ Hstart).
  destruct (run fuel n R (start n T)) as [| | |e]; try discriminate.
  intros E. injection E as ->. now apply H.
Qed.

(** X5: [rank] is monotone in the probed mask: when [x] lies inside [y] and
    [rank] finds [y] at index [m], it finds [x] at an index not above [m]. *)
Theorem rank_monotone (n : Z) (v : list Z) (x y m : Z) :
  2 <= n <= 64 -> Z.land y x = x -> rank n v y = Ok m ->
  exists k, rank n v x = Ok k /\ 0 <= k <= m.
Proof.
  intros Hn Hxy Hy.
  destruct (rank_ok n v y m) as (Hm & Hin & _); [lia | exact Hy |].
  apply rank_total; [lia | lia |].
  now apply contains_trans with (b := y).
Qed.

Lemma rank_monotone_witness :
  exists k, rank 4 [3; 12; 15] 4 = Ok k /\ 0 <= k <= 2.
Proof.
  apply (rank_monotone 4 [3; 12; 15] 4 13 2); [lia | reflexivity | reflexivity].
Defined.

(** * Distance zero *)

Lemma ranked_nonzero (n : Z) (v : list Z) (i : Z) :
  RankedTree n v -> 0 <= i <= n - 2 -> load v i <> 0.
Proof.
  intros [Hn _ Hroot Hch _ _] Hi. now apply stored_nonzero with (n := n).
Qed.

(** A leaf or a node common to both trees is disjoint from a node of [R]
    above it, or inside it. *)
Lemma earlier_apart_or_inside (n : Z) (T R : list Z) (i c : Z) :
  RankedTree n R -> 0 <= i <= n - 2 ->
  (forall k, 0 <= k < i -> load T k = load R k) ->
  earlier n T i c ->
  (Z.land c (load R i) = 0 \/ Z.land (load R i) c = c) /\ c <> load R i.
Proof.
  intros HR Hi Hsame [(k & Hk & ->)|(k & Hk & ->)].
  - split.
    + destruct (Z.testbit (load R i) k) eqn:E.
      * right. apply land_contains. intros m Hm.
        rewrite pow2_bit by lia. intros Em. apply Z.eqb_eq in Em. now subst m.
      * left. apply land_disjoint. intros m Hm.
        rewrite pow2_bit by lia. intros Em. apply Z.eqb_eq in Em. now subst m.
    + intros E. apply (rt_no_leaf _ _ HR i Hi). rewrite <- E.
      exists k. split; [lia | reflexivity].
  - rewrite (Hsame k Hk). split.
    + destruct (ranked_related n R k i HR ltac:(lia) Hi) as [Hd|[[Hc _]|[_ Hle]]];
        [now left | now right | lia].
    + intros E. pose proof (rt_distinct _ _ HR k i ltac:(lia) Hi E). lia.
Qed.

(** If every probe of a node of [R] in [T] finds a rank not above its own,
    the two trees are the same. *)
Lemma probes_below_equal (n : Z) (T R : list Z) :
  RankedTree n T -> RankedTree n R ->
  (forall i, 0 <= i <= n - 2 ->
     exists r, rank n T (load R i) = Ok r /\ r <= i) ->
  T = R.
Proof.
  intros HT HR Hprobe. pose proof (rt_leaves _ _ HT) as Hn.
  assert (Hsame : forall m : nat, forall i, 0 <= i < Z.of_nat m -> i <= n - 2 ->
            load T i = load R i).
  { induction m as [|m IH]; intros i Hi Hi'; [lia|].
    destruct (Z.eq_dec i (Z.of_nat m)) as [->|Hne]; [|apply IH; lia].
    set (i := Z.of_nat m) in *.
    assert (Hbelow : forall k, 0 <= k < i -> load T k = load R k)
      by (intros k Hk; apply IH; lia).
    destruct (Hprobe i ltac:(lia)) as (r & Hrank & Hr).
    destruct (rank_ok n T (load R i) r ltac:(lia) Hrank) as (Hr0 & Hin & _).
    assert (r = i).
    { destruct (Z.eq_dec r i) as [|Hri]; [assumption|].
      rewrite (Hbelow r ltac:(lia)) in Hin.
      pose proof (ranked_contains_le n R i r HR ltac:(lia) ltac:(lia) Hin). lia. }
    subst r.
    destruct (rt_children _ _ HT i ltac:(lia)) as (a & b & Ha & Hb & Hd & Hu).
    destruct (earlier_apart_or_inside n T R i a HR ltac:(lia) Hbelow Ha) as [Ha' Hane].
    destruct (earlier_apart_or_inside n T R i b HR ltac:(lia) Hbelow Hb) as [Hb' Hbne].
    rewrite <- Hu in Hin. rewrite Z.land_lor_distr_l in Hin.
    destruct Ha' as [Ha'|Ha']; destruct Hb' as [Hb'|Hb'].
    - exfalso. apply (ranked_nonzero n R i HR ltac:(lia)).
      rewrite <- Hin, Ha', Hb'. reflexivity.
    - exfalso. apply Hbne. rewrite Ha', Z.lor_0_l in Hin.
      now apply contains_antisym.
    - exfalso. apply Hane. rewrite Hb', Z.lor_0_r in Hin.
      now apply contains_antisym.
    - rewrite <- Hu. apply contains_antisym.
      + rewrite Z.land_lor_distr_l. exact Hin.
      + now apply contains_lor. }
  apply nth_ext with (d := 0) (d' := 0).
  - pose proof (rt_length _ _ HT). pose proof (rt_length _ _ HR). lia.
  - intros k Hk. pose proof (rt_length _ _ HT).
    specialize (Hsame (S k) (Z.of_nat k) ltac:(lia) ltac:(lia)).
    unfold load in Hsame. now rewrite Nat2Z.id in Hsame.
Qed.

(** X6: on ranked trees with the same number of leaves the value returned
    is 0 exactly when the two trees are equal. *)
Theorem zero_distance_iff_equal (n : Z) (T R : list Z) :
  RankedTree n T -> RankedTree n R ->
  ((exists fuel, t64_rnni_distance fuel n T R = Some (Ok 0)) <-> T = R).
Proof.
  intros HT HR. pose proof (rt_leaves _ _ HT) as Hn.
  pose proof (rt_length _ _ HT) as Hl.
  split.
  - intros (fuel & Hzero).
    destruct (distance_steps n T R Hn ltac:(lia) (rt_root _ _ HT)
                (fun i Hi => ranked_inside n R i HR Hi)) as (d & _ & Hrun & Hprobe).
    assert (Hd : t64_rnni_distance (enough n) n T R = Some (Ok d)).
    { unfold t64_rnni_distance. now rewrite Hrun. }
    pose proof (t64_rnni_distance_unique _ _ _ _ _ _ _ Hzero Hd) as E.
    injection E as <-.
    rewrite firstn_all2 in Hprobe by lia.
    apply (probes_below_equal n T R HT HR). now apply Hprobe.
  - intros <-. exists (2 * Z.to_nat (n - 1) + 1)%nat.
    unfold t64_rnni_distance. rewrite (start_ranked n T HT).
    replace (n - 1 - 1) with (Z.of_nat (Z.to_nat (n - 1)) - 1) by lia.
    rewrite self_loop by (auto; lia). reflexivity.
Qed.

Lemma zero_distance_iff_equal_witness :
  (exists fuel, t64_rnni_distance fuel 4 [3; 12; 15] [3; 12; 15] = Some (Ok 0))
  <-> [3; 12; 15] = [3; 12; 15].
Proof.
  apply (zero_distance_iff_equal 4 [3; 12; 15] [3; 12; 15]);
    apply ranked_treeb_sound; reflexivity.
Defined.

(** * The bounds on [n] *)

(** X7: with two leaves there is one ranked tree, the single mask [11], and
    the distance between ranked trees on two leaves is 0. *)
Theorem two_leaves (T R : list Z) :
  RankedTree 2 T -> RankedTree 2 R ->
  T = [3] /\ R = [3] /\
  forall fuel, (3 <= fuel)%nat -> t64_rnni_distance fuel 2 T R = Some (Ok 0).
Proof.
  assert (Hone : forall v, RankedTree 2 v -> v = [3]).
  { intros v Hv. pose proof (rt_length _ _ Hv) as Hl.
    pose proof (rt_root _ _ Hv) as Hr.
    destruct v as [|x [|y v]]; simpl in Hl; try lia.
    unfold load in Hr. simpl in Hr. now subst x. }
  intros HT HR. rewrite (Hone T HT), (Hone R HR).
  split; [reflexivity|]. split; [reflexivity|].
  intros fuel Hf. unfold t64_rnni_distance.
  replace fuel with (3 + (fuel - 3))%nat by lia.
  rewrite run_add.
  change (run 3 2 [3] (start 2 [3])) with (Done 0).
  rewrite run_final by reflexivity. reflexivity.
Qed.

Lemma two_leaves_witness :
  t64_rnni_distance 3 2 [3] [3] = Some (Ok 0).
Proof.
  destruct (two_leaves [3] [3]) as (_ & _ & H);
    [apply ranked_treeb_sound; reflexivity
    |apply ranked_treeb_sound; reflexivity|].
  apply H. lia.
Defined.

(** X8: outside [2 <= n <= 64] the three entry points stop at their
    assertion: no distance is computed, nothing is drawn or stored, nothing
    is printed. *)
Theorem assertion_guards (n : Z) :
  ~ (2 <= n <= 64) ->
  (forall fuel T R, t64_rnni_distance fuel n T R = Some (Fatal Assert_failed)) /\
  (forall (rng : Type) (draw : rng -> Z -> Z * rng) s v,
     t64_random rng draw s n v = Fatal Assert_failed) /\
  (forall v, t64_print n v = Fatal Assert_failed).
Proof.
  intros Hn.
  assert (E : (1 <? n) && (n <=? 64) = false).
  { destruct (Z.ltb_spec 1 n); destruct (Z.leb_spec n 64); try reflexivity. lia. }
  split; [|split].
  - intros fuel T R. unfold t64_rnni_distance, start. rewrite E.
    rewrite run_final by reflexivity. reflexivity.
  - intros rng draw s v. unfold t64_random. now rewrite E.
  - intros v. unfold t64_print. now rewrite E.
Qed.

Lemma assertion_guards_witness :
  t64_rnni_distance 0 65 [] [] = Some (Fatal Assert_failed) /\
  t64_print 1 [] = Fatal Assert_failed.
Proof.
  split.
  - apply (assertion_guards 65). lia.
  - apply (assertion_guards 1). lia.
Defined.

(** * The generator and its buffer *)

Section GeneratorBuffer.

Variable rng : Type.
Variable pcg32_boundedrand_r : rng -> Z -> Z * rng.



Lemma join_loop_buffer (todo : nat) :
  forall i j s u v v',
    0 <= i ->
    i + Z.of_nat todo <= Z.of_nat (length v) ->
    i + Z.of_nat todo <= Z.of_nat (length v') ->
    (forall k, 0 <= k < i -> load v k = load v' k) ->
    fst (join_loop rng pcg32_boundedrand_r todo i j s u v) =
    fst (join_loop rng pcg32_boundedrand_r todo i j s u v') /\
    forall k, 0 <= k < i + Z.of_nat todo ->
      load (snd (join_loop rng pcg32_boundedrand_r todo i j s u v)) k =
      load (snd (join_loop rng pcg32_boundedrand_r todo i j s u v')) k.
Proof.
  induction todo as [|todo IH]; intros i j s u v v' Hi Hl Hl' Hsame.
  - simpl. split; [reflexivity|]. intros k Hk. apply Hsame. lia.
  - cbn [join_loop].
    destruct (pcg32_boundedrand_r s j) as [a s1].
    destruct (pcg32_boundedrand_r s1 (wrap (j - 1))) as [b s2].
    rewrite !(load_store_same (store _ i _) i) by (rewrite length_store; lia).
    rewrite !(load_store_same _ i) by lia.
    match goal with
    | |- context [join_loop _ _ todo (i + 1) ?j' s2 ?u2 ?v2] =>
      match goal with
      | |- context [join_loop _ _ todo (i + 1) j' s2 u2 (store (store v' i ?x) i ?y)] =>
          destruct (IH (i + 1) j' s2 u2 v2 (store (store v' i x) i y))
            as [Hs Hk]; rewrite ?length_store; try lia
      end
    end.
    + intros k Hk. destruct (Z.eq_dec k i) as [->|Hne].
      * rewrite !load_store_same by (rewrite ?length_store; lia). reflexivity.
      * rewrite !load_store_other by lia. apply Hsame. lia.
    + split; [exact Hs|]. intros k Hk0. apply Hk. lia.
Qed.

(** X10: what the buffer held before the call does not matter: on two
    buffers of at least [n-1] words, from the same state of the source,
    [t64_random] leaves the same state and the same entries at the ranks
    [0..n-2]. *)
Theorem t64_random_buffer (s : rng) (n : Z) (v v' : list Z) :
  2 <= n <= 64 ->
  n - 1 <= Z.of_nat (length v) -> n - 1 <= Z.of_nat (length v') ->
  exists s' w w',
    t64_random rng pcg32_boundedrand_r s n v = Ok (s', w) /\
    t64_random rng pcg32_boundedrand_r s n v' = Ok (s', w') /\
    forall k, 0 <= k <= n - 2 -> load w k = load w' k.
Proof.
  intros Hn Hl Hl'. unfold t64_random.
  destruct (Z.ltb_spec 1 n); [|lia]. destruct (Z.leb_spec n 64); [|lia].
  cbn [andb]. rewrite (wrap_small (n - 1)) by lia.
  destruct (join_loop_buffer (Z.to_nat (n - 1)) 0 n s
              (init_leaves (repeat 0 (Z.to_nat n)) 0 (Z.to_nat n)) v v')
    as [Hs Hk]; try lia.
  destruct (join_loop rng pcg32_boundedrand_r (Z.to_nat (n - 1)) 0 n s
              (init_leaves (repeat 0 (Z.to_nat n)) 0 (Z.to_nat n)) v)
    as [s1 w].
  destruct (join_loop rng pcg32_boundedrand_r (Z.to_nat (n - 1)) 0 n s
              (init_leaves (repeat 0 (Z.to_nat n)) 0 (Z.to_nat n)) v')
    as [s2 w'].
  simpl in Hs, Hk. subst s2.
  exists s1, w, w'. split; [reflexivity|]. split; [reflexivity|].
  intros k Hk0. apply Hk. lia.
Qed.

End GeneratorBuffer.


Lemma t64_random_buffer_witness :
  exists s' w w',
    t64_random Z lcg_draw 42 4 [0; 0; 0] = Ok (s', w) /\
    t64_random Z lcg_draw 42 4 [5; 6; 7; 8] = Ok (s', w') /\
    load w 0 = load w' 0.
Proof.
  destruct (t64_random_buffer Z lcg_draw 42 4 [0; 0; 0] [5; 6; 7; 8])
    as (s' & w & w' & H1 & H2 & Hk); [lia | simpl; lia | simpl; lia |].
  exists s', w, w'. split; [exact H1|]. split; [exact H2|]. apply Hk. lia.
Defined.

(** * The repetitions of [main] *)

Section DriverCorrect.

Variable rng : Type.
Variable pcg32_boundedrand_r : rng -> Z -> Z * rng.
Variable pcg32_srandom_r : Z -> Z -> rng.
Hypothesis pcg32_boundedrand_r_range :
  forall s bound, 0 < bound -> 0 <= fst (pcg32_boundedrand_r s bound) < bound.

Lemma random_tree (s : rng) (n : Z) (v : list Z) :
  2 <= n <= 64 -> Z.of_nat (length v) = n - 1 ->
  exists s' v',
    t64_random rng pcg32_boundedrand_r s n v = Ok (s', v') /\ RankedTree n v'.
Proof.
  intros Hn Hv. unfold t64_random.
  destruct (Z.ltb_spec 1 n); [|lia]. destruct (Z.leb_spec n 64); [|lia].
  cbn [andb]. rewrite (wrap_small (n - 1)) by lia.
  destruct (join_loop_joined rng pcg32_boundedrand_r pcg32_boundedrand_r_range
              n (Z.to_nat (n - 1)) Hn 0 n s
              (init_leaves (repeat 0 (Z.to_nat n)) 0 (Z.to_nat n)) v)
    as (u' & J); [now apply joined_init | lia |].
  destruct (join_loop rng pcg32_boundedrand_r (Z.to_nat (n - 1)) 0 n s
              (init_leaves (repeat 0 (Z.to_nat n)) 0 (Z.to_nat n)) v)
    as [s' v'] eqn:E.
  exists s', v'. split; [reflexivity|].
  simpl in J. now apply joined_ranked with (u := u').
Qed.

Lemma main_loop_sum (fuel : nat) (n : Z) (reps : nat) :
  2 <= n <= 64 -> (enough n <= fuel)%nat ->
  forall s v u d,
    Z.of_nat (length v) = n - 1 -> Z.of_nat (length u) = n - 1 ->
    0 <= d -> d + Z.of_nat reps * ((n - 1) * (n - 2) / 2) < 2 ^ 64 ->
    exists d',
      main_loop rng pcg32_boundedrand_r fuel n reps s v u d = Some (Ok d') /\
      d <= d' <= d + Z.of_nat reps * ((n - 1) * (n - 2) / 2).
Proof.
  intros Hn Hf.
  assert (Hb : 0 <= (n - 1) * (n - 2) / 2) by (apply Z.div_pos; nia).
  induction reps as [|reps IH]; intros s v u d Hv Hu Hd Hsum.
  - exists d. simpl. split; [reflexivity | lia].
  - cbn [main_loop].
    destruct (random_tree s n v Hn Hv) as (s1 & v1 & -> & Hv1).
    destruct (random_tree s1 n u Hn Hu) as (s2 & u1 & -> & Hu1).
    destruct (distance_steps n v1 u1 Hn) as (x & Hx & Hrun & _).
    { pose proof (rt_length _ _ Hv1). lia. }
    { apply (rt_root _ _ Hv1). }
    { intros i Hi. now apply ranked_inside. }
    assert (Hdist : t64_rnni_distance fuel n v1 u1 = Some (Ok x)).
    { unfold t64_rnni_distance. now rewrite Hrun. }
    rewrite Hdist. rewrite wrap_small by nia.
    destruct (IH s2 v1 u1 (d + x)) as (d' & Hd' & Hbound);
      [apply (rt_length _ _ Hv1) | apply (rt_length _ _ Hu1) | lia | nia |].
    exists d'. split; [exact Hd' | nia].
Qed.

(** X11: [main] takes no fatal branch: each of its 100000 repetitions
    draws two ranked trees on 50 leaves and adds their distance, at most
    1176, to the sum, which stays below 117600000 and so never wraps. *)
Theorem main_sum (fuel : nat) (v u : list Z) :
  (enough 50 <= fuel)%nat ->
  Z.of_nat (length v) = 49 -> Z.of_nat (length u) = 49 ->
  exists d,
    main rng pcg32_boundedrand_r pcg32_srandom_r fuel v u = Some (Ok d) /\
    0 <= d <= 117600000.
Proof.
  intros Hf Hv Hu. unfold main.
  destruct (main_loop_sum fuel 50 (Z.to_nat 100000) ltac:(lia) Hf
              (pcg32_srandom_r 12 34) v u 0) as (d & Hd & Hbound);
    try assumption; try lia.
  - rewrite Z2Nat.id by lia. reflexivity.
  - exists d. split; [exact Hd|]. rewrite Z2Nat.id in Hbound by lia.
    change ((50 - 1) * (50 - 2) / 2) with 1176 in Hbound. lia.
Qed.

End DriverCorrect.

Lemma main_sum_witness :
  exists d,
    main Z lcg_draw (fun a b => a + b) (enough 50)
         (repeat 0 49) (repeat 0 49) = Some (Ok d) /\
    0 <= d <= 117600000.
Proof.
  apply (main_sum Z lcg_draw (fun a b => a + b) lcg_draw_range).
  - apply Nat.le_refl.
  - reflexivity.
  - reflexivity.
Defined.

(** * The case of two leaves under [u] *)

Lemma count_bits (f : nat -> bool) (l : list nat) :
  fold_right (fun k acc => Z.b2z (f k) + acc) 0 l =
  Z.of_nat (length (List.filter f l)).
Proof.
  induction l as [|k l IH]; [reflexivity|].
  cbn [fold_right List.filter]. rewrite IH.
  destruct (f k); cbn [length Z.b2z]; lia.
Qed.

Lemma popcount64_count (x : Z) :
  popcount64 x =
  Z.of_nat (length (List.filter (fun k => Z.testbit x (Z.of_nat k)) (seq 0 64))).
Proof. unfold popcount64. apply count_bits. Qed.

Lemma high_bits_zero (u k : Z) :
  0 <= u < 2 ^ 64 -> 64 <= k -> Z.testbit u k = false.
Proof.
  intros Hu Hk. rewrite <- (Z.mod_small u (2 ^ 64)) by lia.
  apply Z.mod_pow2_bits_high. lia.
Qed.

(** A word with two bits set is the join of two leaf masks. *)
Lemma two_bits (u : Z) :
  0 <= u < 2 ^ 64 -> popcount64 u = 2 ->
  exists a b, 0 <= a < b /\ b < 64 /\
    forall k, 0 <= k -> Z.testbit u k = (a =? k) || (b =? k).
Proof.
  intros Hu Hp. rewrite popcount64_count in Hp.
  set (f := fun k => Z.testbit u (Z.of_nat k)) in *.
  destruct (List.filter f (seq 0 64)) as [|a [|b [|c l]]] eqn:E; simpl in Hp; try lia.
  assert (Hin : forall k, In k [a; b] <-> In k (seq 0 64) /\ f k = true)
    by (intros k; rewrite <- E; apply List.filter_In).
  assert (Hnd : List.NoDup [a; b])
    by (rewrite <- E; apply List.NoDup_filter, List.seq_NoDup).
  assert (Hab : a <> b).
  { intros ->. inversion Hnd as [|? ? Hn _]. apply Hn. now left. }
  destruct (proj1 (Hin a) ltac:(now left)) as [Ha Hfa]. apply in_seq in Ha.
  destruct (proj1 (Hin b) ltac:(right; now left)) as [Hb Hfb]. apply in_seq in Hb.
  assert (Hbits : forall k, 0 <= k ->
            Z.testbit u k = (Z.of_nat a =? k) || (Z.of_nat b =? k)).
  { intros k Hk. destruct (Z_lt_ge_dec k 64) as [Hlt|Hge].
    - destruct (Z.testbit u k) eqn:Ek.
      + assert (Hk' : In (Z.to_nat k) [a; b]).
        { apply Hin. split; [apply in_seq; lia|].
          unfold f. now rewrite Z2Nat.id by lia. }
        symmetry. apply orb_true_iff.
        destruct Hk' as [Hka|[Hkb|[]]]; [left | right]; apply Z.eqb_eq; lia.
      + symmetry. apply orb_false_iff. split; apply Z.eqb_neq; intros <-.
        * unfold f in Hfa. congruence.
        * unfold f in Hfb. congruence.
    - rewrite high_bits_zero by lia. symmetry.
      apply orb_false_iff. split; apply Z.eqb_neq; lia. }
  destruct (Nat.lt_ge_cases a b) as [Hlt|Hge].
  - exists (Z.of_nat a), (Z.of_nat b). repeat split; try lia. exact Hbits.
  - exists (Z.of_nat b), (Z.of_nat a). repeat split; try lia.
    intros k Hk. rewrite Hbits by exact Hk. apply orb_comm.
Qed.

Ltac decide_bits :=
  repeat match goal with
    | |- context [?x =? ?y] => destruct (Z.eqb_spec x y)
    | |- context [?x <? ?y] => destruct (Z.ltb_spec x y)
    end; simpl; try reflexivity; try lia.

(** [u & -u] is the lower of the two leaves. *)
Lemma lowest_of_two (a b : Z) :
  0 <= a < b -> b < 64 ->
  Z.land (Z.lor (2 ^ a) (2 ^ b)) (neg64 (Z.lor (2 ^ a) (2 ^ b))) = 2 ^ a.
Proof.
  intros Ha Hb.
  assert (Hd : Z.land (2 ^ a) (2 ^ b) = 0) by (apply pow2_disjoint; lia).
  assert (Hd' : Z.land (2 ^ b) (Z.ones a) = 0).
  { apply land_disjoint. intros k Hk. rewrite pow2_bit, ones_bit by lia.
    intros E. apply Z.eqb_eq in E. apply Z.ltb_ge. lia. }
  assert (Hpred : Z.pred (Z.lor (2 ^ a) (2 ^ b)) = Z.lor (2 ^ b) (Z.ones a)).
  { rewrite <- !Z.add_nocarry_lor by assumption. rewrite Z.ones_equiv. lia. }
  apply Z.bits_inj'. intros k Hk.
  unfold neg64, wrap.
  rewrite Z.land_spec, Z.testbit_mod_pow2, Z.bits_opp, Hpred by lia.
  rewrite !Z.lor_spec, !pow2_bit, ones_bit by lia.
  decide_bits.
Qed.

(** The two leaves of a word with two bits set, as the code computes
    them. *)
Lemma two_leaf_masks (u : Z) :
  0 <= u < 2 ^ 64 -> popcount64 u = 2 ->
  exists a b,
    0 <= a < b /\ b < 64 /\ u = Z.lor (2 ^ a) (2 ^ b) /\
    Z.land u (neg64 u) = 2 ^ a /\ sub64 u (2 ^ a) = 2 ^ b.
Proof.
  intros Hu Hp. destruct (two_bits u Hu Hp) as (a & b & Ha & Hb & Hbits).
  assert (E : u = Z.lor (2 ^ a) (2 ^ b)).
  { apply Z.bits_inj'. intros k Hk.
    rewrite Hbits, Z.lor_spec, !pow2_bit by lia. reflexivity. }
  exists a, b. split; [exact Ha|]. split; [exact Hb|]. split; [exact E|]. split.
  - rewrite E at 1 2. now rewrite lowest_of_two.
  - rewrite E, <- Z.add_nocarry_lor by (apply pow2_disjoint; lia).
    unfold sub64. replace (2 ^ a + 2 ^ b - 2 ^ a) with (2 ^ b) by lia.
    apply wrap_small. split; [apply Z.pow_nonneg; lia|].
    apply Z.pow_lt_mono_r; lia.
Qed.

(** X12: when [u] has exactly two bits set, the code takes the two leaves
    of [u] as its children: [x = u & -u] is the mask of the lower leaf, and
    [y = u - x] the mask of the other one. *)
Theorem two_leaf_children (u : Z) :
  0 <= u < 2 ^ 64 -> popcount64 u = 2 ->
  exists a b,
    0 <= a < b /\ b < 64 /\ u = Z.lor (2 ^ a) (2 ^ b) /\
    (forall T1 r, find_child T1 u r = Ok (2 ^ a)) /\
    sub64 u (2 ^ a) = 2 ^ b.
Proof.
  intros Hu Hp.
  destruct (two_leaf_masks u Hu Hp) as (a & b & Ha & Hb & E & Hx & Hy).
  exists a, b. split; [exact Ha|]. split; [exact Hb|]. split; [exact E|].
  split; [|exact Hy].
  intros T1 r. unfold find_child. rewrite Hp. simpl. now rewrite Hx.
Qed.

Lemma two_leaf_children_witness :
  exists a b, 12 = Z.lor (2 ^ a) (2 ^ b) /\ find_child [3; 12; 15] 12 2 = Ok (2 ^ a).
Proof.
  destruct (two_leaf_children 12) as (a & b & _ & _ & E & Hx & _);
    [lia | reflexivity |].
  exists a, b. split; [exact E | apply Hx].
Defined.

(** * What a distance computation reads and writes *)

Lemma step_within (n : Z) (R : list Z) (s : state) :
  2 <= n <= 64 -> within n s -> within n (step n R s).
Proof.
  intros Hn Hs. destruct s as [i T1 d|i r T1 d|d|e]; simpl in *; try exact I.
  - destruct Hs as [Hi Hl]. rewrite wrap_small by lia.
    destruct (Z.ltb_spec i (n - 1)); [|exact I].
    destruct (rank n T1 (load R i)) as [r|e] eqn:E; [|exact I].
    destruct (rank_ok n T1 (load R i) r ltac:(lia) E) as (Hr & _).
    simpl. lia.
  - destruct Hs as (Hi & Hr & Hl). destruct (Z.gtb_spec r i).
    + destruct (move_total (load R i) T1 r) as (T1' & -> & Hl').
      simpl. rewrite wrap_small by lia. lia.
    + simpl. destruct (Z.eq_dec i 0) as [->|Hne].
      * rewrite wrap_pred_zero. lia.
      * rewrite wrap_small by lia. lia.
Qed.

(** X13: throughout a distance computation the counters stay within the
    arrays: [i] and [r] lie in [0, n-2] (a move uses [r] and [r-1] with
    [r > i >= 0]), and the working copy keeps its [n-1] words; this holds
    for all contents of [T] and [R]. *)
Theorem indices_within (fuel : nat) (n : Z) (T R : list Z) :
  2 <= n <= 64 -> n - 1 <= Z.of_nat (length T) ->
  within n (run fuel n R (start n T)).
Proof.
  intros Hn Hl.
  assert (H : forall k s, within n s -> within n (run k n R s)).
  { induction k as [|k IH]; intros s Hs; simpl; [exact Hs|].
    apply IH. now apply step_within. }
  apply H. unfold start.
  destruct (Z.ltb_spec 1 n); [|lia]. destruct (Z.leb_spec n 64); [|lia].
  simpl. rewrite wrap_small by lia. split; [lia|].
  rewrite firstn_length_le; lia.
Qed.

Lemma indices_within_witness :
  within 4 (run 5 4 [5; 7; 15] (start 4 [3; 12; 15])).
Proof.
  apply (indices_within 5 4 [3; 12; 15] [5; 7; 15]); [lia | simpl; lia].
Defined.

Lemma run_reads_prefix (n : Z) (R R' : list Z) :
  2 <= n <= 64 ->
  (forall k, 0 <= k <= n - 2 -> load R k = load R' k) ->
  forall fuel s,
    match s with
    | Outer i _ _ => 0 <= i
    | Inner i _ _ _ => 0 <= i <= n - 2
    | _ => True
    end ->
    run fuel n R s = run fuel n R' s.
Proof.
  intros Hn Hsame. induction fuel as [|fuel IH]; intros s Hs; [reflexivity|].
  cbn [run].
  assert (E : step n R s = step n R' s).
  { destruct s as [i T1 d|i r T1 d|d|e]; simpl; try reflexivity.
    - rewrite wrap_small by lia. destruct (Z.ltb_spec i (n - 1)); [|reflexivity].
      now rewrite Hsame by lia.
    - now rewrite Hsame by lia. }
  rewrite <- E. apply IH.
  destruct s as [i T1 d|i r T1 d|d|e]; simpl; try exact I.
  - rewrite wrap_small by lia. destruct (Z.ltb_spec i (n - 1)); [|exact I].
    destruct (rank n T1 (load R i)); [simpl; lia | exact I].
  - destruct (r >? i).
    + destruct (move (load R i) T1 r); [simpl; lia | exact I].
    + simpl. apply wrap_range.
Qed.

(** X14: a distance computation reads the first [n-1] words of [T] and of
    [R] and nothing else: arrays that agree on these words give the same
    outcome. *)
Theorem distance_reads_prefix (fuel : nat) (n : Z) (T T' R R' : list Z) :
  2 <= n <= 64 ->
  firstn (Z.to_nat (n - 1)) T = firstn (Z.to_nat (n - 1)) T' ->
  (forall k, 0 <= k <= n - 2 -> load R k = load R' k) ->
  t64_rnni_distance fuel n T R = t64_rnni_distance fuel n T' R'.
Proof.
  intros Hn HT HR. unfold t64_rnni_distance.
  assert (Hstart : start n T = start n T') by (unfold start; now rewrite HT).
  rewrite <- Hstart.
  rewrite (run_reads_prefix n R R' Hn HR fuel (start n T)); [reflexivity|].
  unfold start. destruct ((1 <? n) && (n <=? 64)); [|exact I].
  simpl. apply wrap_range.
Qed.

Lemma distance_reads_prefix_witness :
  t64_rnni_distance 12 4 [3; 12; 15; 99] [5; 7; 15; 1; 2] =
  t64_rnni_distance 12 4 [3; 12; 15] [5; 7; 15].
Proof.
  apply (distance_reads_prefix 12 4); [lia | reflexivity |].
  intros k Hk. assert (Hc : k = 0 \/ k = 1 \/ k = 2) by lia.
  destruct Hc as [->|[->| ->]]; reflexivity.
Defined.

(** * Moves that keep a ranked tree *)

Lemma swap_keeps_tree (n : Z) (T1 : list Z) (r : Z) :
  RankedTree n T1 -> 1 <= r <= n - 2 ->
  Z.land (load T1 r) (load T1 (r - 1)) = 0 ->
  RankedTree n (store (store T1 r (load T1 (r - 1))) (r - 1) (load T1 r)).
Proof.
  intros HT Hr Hd.
  pose proof (rt_leaves _ _ HT) as Hn. pose proof (rt_length _ _ HT) as Hl.
  set (T1' := store (store T1 r (load T1 (r - 1))) (r - 1) (load T1 r)).
  set (sw := fun k => if k =? r then r - 1 else if k =? r - 1 then r else k).
  assert (Hsw : forall k, 0 <= k <= n - 2 -> load T1' k = load T1 (sw k)).
  { intros k Hk. unfold T1', sw.
    rewrite load_store by (rewrite ?length_store; lia).
    destruct (Z.eqb_spec k (r - 1)) as [->|Hne].
    - destruct (Z.eqb_spec (r - 1) r); [lia | reflexivity].
    - rewrite load_store by lia. destruct (Z.eqb_spec k r); reflexivity. }
  assert (Hswr : forall k, 0 <= k <= n - 2 -> 0 <= sw k <= n - 2).
  { intros k Hk. unfold sw.
    destruct (Z.eqb_spec k r); [lia|]. destruct (Z.eqb_spec k (r - 1)); lia. }
  assert (Hsw2 : forall k, sw (sw k) = k).
  { intros k. unfold sw. destruct (Z.eqb_spec k r) as [->|H1].
    - destruct (Z.eqb_spec (r - 1) r); [lia|]. now rewrite Z.eqb_refl.
    - destruct (Z.eqb_spec k (r - 1)) as [->|H2].
      + now rewrite Z.eqb_refl.
      + destruct (Z.eqb_spec k r); [lia|].
        destruct (Z.eqb_spec k (r - 1)); [lia | reflexivity]. }
  assert (Hunz : load T1 (r - 1) <> 0) by (apply (ranked_nonzero n); auto; lia).
  assert (Hchild : forall a b, Z.lor a b = load T1 r -> a <> load T1 (r - 1)).
  { intros a b Hu ->. apply Hunz.
    rewrite <- (lor_contains_l (load T1 (r - 1)) b), Hu. exact Hd. }
  assert (Hrn : r <> n - 2).
  { intros ->. apply Hunz. rewrite <- Hd, (rt_root _ _ HT).
    symmetry. apply (ranked_inside n); auto; lia. }
  constructor.
  - exact Hn.
  - unfold T1'. rewrite !length_store. exact Hl.
  - rewrite Hsw by lia. unfold sw.
    destruct (Z.eqb_spec (n - 2) r); [lia|].
    destruct (Z.eqb_spec (n - 2) (r - 1)); [lia|]. apply (rt_root _ _ HT).
  - intros k Hk. rewrite Hsw by exact Hk.
    destruct (rt_children _ _ HT (sw k) (Hswr k Hk))
      as (a & b & Ha & Hb & Hab & Hu).
    assert (Hearlier : forall c c', Z.lor c c' = load T1 (sw k) ->
              earlier n T1 (sw k) c -> earlier n T1' k c).
    { intros c c' Hcu [Hleaf|(j & Hj & ->)]; [now left | right].
      pose proof (Hswr k Hk) as Hswk.
      exists (sw j). rewrite Hsw by (apply Hswr; lia). rewrite Hsw2.
      split; [|reflexivity].
      clear Hsw Hswr Hsw2. unfold sw in *.
      destruct (Z.eqb_spec k r) as [->|Hkr].
      - destruct (Z.eqb_spec j r); [lia|].
        destruct (Z.eqb_spec j (r - 1)); lia.
      - destruct (Z.eqb_spec k (r - 1)) as [->|Hkr'].
        + destruct (Z.eqb_spec j r); [lia|].
          destruct (Z.eqb_spec j (r - 1)) as [->|]; [|lia].
          exfalso. now apply (Hchild (load T1 (r - 1)) c').
        + destruct (Z.eqb_spec j r); [lia|].
          destruct (Z.eqb_spec j (r - 1)); lia. }
    exists a, b. split; [now apply (Hearlier a b)|].
    split; [apply (Hearlier b a); [now rewrite Z.lor_comm | exact Hb]|].
    split; assumption.
  - intros k Hk. rewrite Hsw by exact Hk. apply (rt_no_leaf _ _ HT). now apply Hswr.
  - intros k k' Hk Hk'. rewrite !Hsw by assumption. intros E.
    apply (rt_distinct _ _ HT) in E; [|now apply Hswr | now apply Hswr].
    rewrite <- (Hsw2 k), <- (Hsw2 k'). now rewrite E.
Qed.

(** X15: in a ranked tree, when the nodes at the ranks [r] and [r-1] are
    disjoint, the move exchanges the two entries and the working copy is a
    ranked tree again. *)
Theorem swap_move_ranked (n : Z) (Ri : Z) (T1 : list Z) (r : Z) :
  RankedTree n T1 -> 1 <= r <= n - 2 ->
  Z.land (load T1 r) (load T1 (r - 1)) = 0 ->
  exists T1',
    move Ri T1 r = Ok T1' /\
    load T1' r = load T1 (r - 1) /\ load T1' (r - 1) = load T1 r /\
    RankedTree n T1'.
Proof.
  intros HT Hr Hd.
  pose proof (rt_leaves _ _ HT) as Hn. pose proof (rt_length _ _ HT) as Hl.
  assert (Hw : wrap (r - 1) = r - 1) by (apply wrap_small; lia).
  destruct (move_shape Ri T1 r) as [[_ Hs]|[Hnz _]];
    rewrite Hw in *; [|contradiction].
  eexists. split; [exact Hs|]. split; [|split].
  - rewrite load_store_other, load_store_same by lia. reflexivity.
  - rewrite load_store_same by (rewrite length_store; lia). reflexivity.
  - now apply swap_keeps_tree.
Qed.

Lemma swap_move_ranked_witness :
  exists T1', move 12 [3; 12; 15] 1 = Ok T1' /\ RankedTree 4 T1'.
Proof.
  destruct (swap_move_ranked 4 12 [3; 12; 15] 1) as (T1' & Hm & _ & _ & Ht).
  - apply ranked_treeb_sound. reflexivity.
  - lia.
  - reflexivity.
  - exists T1'. split; [exact Hm | exact Ht].
Defined.








